(** * Pyrlang [Process]: actor lifecycle and inbox dispatch loop

    A shallow embedding of [Pyrlang/process.py] (class [Process], a gevent
    [Greenlet]) and of the collaborators it calls.

    - Python objects live in a store indexed by references, so that the
      node's process dictionary, [Node.all_nodes] and the holders of a
      process all name the same object.
    - The code of the greenlet ([_run], which calls [handle_inbox], which
      calls [handle_one_inbox_message]) is a small-step machine over the
      places where it can be suspended and resumed: the loop test, the
      blocking [get()], and [gevent.sleep(0)].  [_run] and [handle_inbox]
      iterate it with fuel.
    - What the code prints and the calls it makes to the node are recorded in
      a trace.
    - The handler is the one this class defines (lines 81-83); the overriding
      handlers of subclasses are not part of the file. *)

From stdpp Require Import base gmap sets list strings.

(** ** Python values *)

(** The values that travel through mailboxes and serve as exit reasons.
    [PyNone] is Python's [None]. *)
Inductive pyval : Type :=
| PyNone
| PyInt (z : Z)
| PyStr (s : string).

#[global] Instance pyval_eq_dec : EqDecision pyval.
Proof. solve_decision. Defined.

(** [msg is None] *)
Definition py_is_none (v : pyval) : bool :=
  match v with
  | PyNone => true
  | _ => false
  end.

(** Object references (the identity of a Python object) and process
    identifiers.  [Pyrlang.Term.pid.Pid] is used by [process.py] only as an
    opaque comparable value. *)
Abbreviation ref := nat.
Abbreviation Pid := N.

(** ** Mailbox *)

Module Mailbox.

(** Modelled from the spec: [Pyrlang.mailbox.Mailbox] (imported by
    [process.py], not among the sources; the docstring of [inbox_] calls it a
    [gevent.Queue]).  "An ordered sequence of opaque message values; FIFO";
    [put] enqueues at the back without blocking; [get] "blocks the calling
    actor (and only the calling actor) until a message is available", as the
    comment at lines 72-73 also says ("Block, but then gevent will allow other
    green-threads to run"): on an empty queue it does not return, which is
    [None] here, and the caller stays suspended at the call. *)
Definition new : list pyval := [].

Definition put (q : list pyval) (msg : pyval) : list pyval := q ++ [msg].

Definition get (q : list pyval) : option (pyval * list pyval) :=
  match q with
  | [] => None
  | msg :: q' => Some (msg, q')
  end.

End Mailbox.

(** ** Node: the process registry *)

Module Node.

(** Modelled from the spec: the [Node] class (imported by [process.py], not
    among the sources).  It carries its name and the "mapping from Pid to
    Actor, one entry per live actor". *)
Record t : Type := mk {
  node_name_ : string;
  processes_ : gmap Pid ref
}.

(** Modelled from the spec: "[registerNewProcess(actor) -> Pid] issues a Pid
    guaranteed distinct from every currently-registered Pid and installs the
    mapping". *)
Definition register_new_process (n : t) (proc : ref) : Pid * t :=
  let pid := fresh (dom (processes_ n)) in
  (pid, mk (node_name_ n) (<[pid := proc]> (processes_ n))).

(** Modelled from the spec: "[onExitProcess(pid, reason)] removes the mapping
    for [pid] if present (idempotent -- removing an already-absent Pid is a
    no-op, not an error)". *)
Definition on_exit_process (n : t) (pid : Pid) (reason : pyval) : t :=
  mk (node_name_ n) (delete pid (processes_ n)).

(** Modelled from the spec: the Registry's lookup by Pid; [None] is
    "not found". *)
Definition lookup (n : t) (pid : Pid) : option ref := processes_ n !! pid.

End Node.

(** ** Process objects and the world *)

(** Where the greenlet of a process stands in its code.  The line numbers are
    those of [process.py]. *)
Inductive greenlet : Type :=
| Unstarted   (* after [Greenlet.__init__], before [self.start()] *)
| AtWhile     (* [_run], line 63: about to test [not self.is_exiting_] *)
| AtGet       (* [handle_inbox], line 74: about to call [self.inbox_.get()] *)
| AtSleep     (* [_run], line 65: [handle_inbox] returned, about to [gevent.sleep(0)] *)
| Dead.       (* [_run] returned *)

#[global] Instance greenlet_eq_dec : EqDecision greenlet.
Proof. solve_decision. Defined.

(** The attributes assigned by [Process.__init__], with the state of the
    greenlet the object inherits from. *)
Record Process : Type := mkProcess {
  greenlet_ : greenlet;
  node_name_ : string;
  inbox_ : list pyval;
  pid_ : Pid;
  is_exiting_ : bool;
  monitors_ : gset Pid;
  monitor_targets_ : gset Pid
}.

(** What the code does that is visible from outside the objects. *)
Inductive event : Type :=
| EvDequeued (self : ref) (msg : pyval)
    (* line 76: [print("%s: handle_inbox %s" % (self, msg))] *)
| EvHandled (self : ref) (pid : Pid) (msg : pyval)
    (* line 83, the body of [handle_one_inbox_message(msg)] *)
| EvSleep (self : ref)
    (* line 65: [gevent.sleep(0)] *)
| EvOnExitProcess (node : ref) (pid : Pid) (reason : pyval).
    (* line 94: [n.on_exit_process(self.pid_, reason)] *)

#[global] Instance event_eq_dec : EqDecision event.
Proof. solve_decision. Defined.

Record World : Type := mkWorld {
  nodes : gmap ref Node.t;        (* the Node objects *)
  all_nodes : gmap string ref;    (* the class attribute [Node.all_nodes] *)
  procs : gmap ref Process;       (* the Process objects *)
  trace : list event
}.

(** Exceptions; [Ok] is a normal return. *)
Inductive exn : Type :=
| KeyError (key : string)   (* [Node.all_nodes[...]] on a missing name *)
| NotAnObject (r : ref).    (* a reference to no object: no Python program has one *)

Inductive result (A : Type) : Type :=
| Ok (a : A)
| Raise (e : exn).
Arguments Ok {A} a.
Arguments Raise {A} e.

Definition set_proc (w : World) (self : ref) (p : Process) : World :=
  mkWorld (nodes w) (all_nodes w) (<[self := p]> (procs w)) (trace w).

Definition set_node (w : World) (node : ref) (n : Node.t) : World :=
  mkWorld (<[node := n]> (nodes w)) (all_nodes w) (procs w) (trace w).

Definition emit (w : World) (e : event) : World :=
  mkWorld (nodes w) (all_nodes w) (procs w) (trace w ++ [e]).

Definition with_greenlet (p : Process) (g : greenlet) : Process :=
  mkProcess g (node_name_ p) (inbox_ p) (pid_ p) (is_exiting_ p)
            (monitors_ p) (monitor_targets_ p).

Definition with_inbox (p : Process) (q : list pyval) : Process :=
  mkProcess (greenlet_ p) (node_name_ p) q (pid_ p) (is_exiting_ p)
            (monitors_ p) (monitor_targets_ p).

(** ** The methods of [Process] *)

(** [Process.__init__(self, node)], lines 30-60.  Returns the new object's
    reference. *)
Definition __init__ (w : World) (node : ref) : result (ref * World) :=
  match nodes w !! node with
  | None => Raise (NotAnObject node)
  | Some n =>
      let self := fresh (dom (procs w)) in          (* Greenlet.__init__(self) *)
      let name := Node.node_name_ n in              (* self.node_name_ = node.node_name_ *)
      let inbox := Mailbox.new in                   (* self.inbox_ = mailbox.Mailbox() *)
      let '(pid, n') := Node.register_new_process n self in
                                                    (* self.pid_ = node.register_new_process(self) *)
      let p := mkProcess AtWhile                    (* self.start() *)
                         name inbox pid
                         false                      (* self.is_exiting_ = False *)
                         ∅ ∅ in                     (* monitors_, monitor_targets_ = set() *)
      Ok (self, set_proc (set_node w node n') self p)
  end.

(** [handle_one_inbox_message(self, msg)], lines 81-83: prints the pid and the
    message. *)
Definition handle_one_inbox_message (w : World) (self : ref) (p : Process)
    (msg : pyval) : World :=
  emit w (EvHandled self (pid_ p) msg).

(** One turn of the [while True] of [handle_inbox], lines 71-79, for the
    process [p] stored at [self].  [None]: the greenlet is suspended inside
    [get()]. *)
Definition handle_inbox_turn (w : World) (self : ref) (p : Process) : option World :=
  match Mailbox.get (inbox_ p) with
  | None => None
  | Some (msg, q) =>
      let w1 := emit (set_proc w self (with_inbox p q)) (EvDequeued self msg) in
      if py_is_none msg
      then Some (set_proc w1 self (with_greenlet (with_inbox p q) AtSleep))   (* break *)
      else Some (handle_one_inbox_message w1 self (with_inbox p q) msg)
  end.

(** The greenlet of [self] runs from its control point to the next one.
    [None]: it cannot run (suspended in [get()], not started, finished, or no
    such object). *)
Definition step (w : World) (self : ref) : option World :=
  match procs w !! self with
  | None => None
  | Some p =>
      match greenlet_ p with
      | Unstarted => None
      | AtWhile =>                                   (* while not self.is_exiting_: *)
          if is_exiting_ p
          then Some (set_proc w self (with_greenlet p Dead))
          else Some (set_proc w self (with_greenlet p AtGet))   (* self.handle_inbox() *)
      | AtGet => handle_inbox_turn w self p
      | AtSleep =>                                   (* gevent.sleep(0) *)
          Some (emit (set_proc w self (with_greenlet p AtWhile)) (EvSleep self))
      | Dead => None
      end
  end.

(** [_run(self)], lines 62-65: the greenlet runs until it finishes or is
    suspended in [get()], for at most [fuel] control points. *)
Fixpoint _run (fuel : nat) (w : World) (self : ref) : World :=
  match fuel with
  | O => w
  | S fuel' =>
      match step w self with
      | None => w
      | Some w' => _run fuel' w' self
      end
  end.

(** [handle_inbox(self)], lines 67-79: one drain pass, entered at [get()]; it
    runs until the [break] or until [get()] suspends it. *)
Fixpoint handle_inbox (fuel : nat) (w : World) (self : ref) : World :=
  match fuel with
  | O => w
  | S fuel' =>
      match procs w !! self with
      | Some p =>
          match greenlet_ p with
          | AtGet =>
              match handle_inbox_turn w self p with
              | Some w' => handle_inbox fuel' w' self
              | None => w
              end
          | _ => w
          end
      | None => w
      end
  end.

(** [exit(self, reason=None)], lines 85-94. *)
Definition exit (w : World) (self : ref) (reason : pyval) : result World :=
  match procs w !! self with
  | None => Raise (NotAnObject self)
  | Some p =>
      match all_nodes w !! node_name_ p with         (* n = Node.all_nodes[self.node_name_] *)
      | None => Raise (KeyError (node_name_ p))
      | Some node =>
          match nodes w !! node with
          | None => Raise (NotAnObject node)
          | Some n =>                                (* n.on_exit_process(self.pid_, reason) *)
              Ok (emit (set_node w node (Node.on_exit_process n (pid_ p) reason))
                       (EvOnExitProcess node (pid_ p) reason))
          end
      end
  end.

(** [self.inbox_.put(msg)] by any sender holding a reference to the
    process. *)
Definition put (w : World) (self : ref) (msg : pyval) : World :=
  match procs w !! self with
  | None => w
  | Some p => set_proc w self (with_inbox p (Mailbox.put (inbox_ p) msg))
  end.

(** ** Schedules *)

(** What can happen to a world: a process is constructed, a greenlet is
    given a turn, a message is put in an inbox, [exit] is called.  A call
    that raises leaves the world as it was. *)
Inductive op : Type :=
| Spawn (node : ref)
| Turn (self : ref)
| Put (self : ref) (msg : pyval)
| Exit (self : ref) (reason : pyval).

Definition apply (w : World) (o : op) : World :=
  match o with
  | Spawn node => match __init__ w node with Ok (_, w') => w' | Raise _ => w end
  | Turn self => match step w self with Some w' => w' | None => w end
  | Put self msg => put w self msg
  | Exit self reason => match exit w self reason with Ok w' => w' | Raise _ => w end
  end.

Definition exec (ops : list op) (w : World) : World := foldl apply w ops.

(** ** Observations *)

(** The messages [handle_one_inbox_message] of [self] was called with, in
    call order. *)
Definition handled_by (self : ref) (e : event) : option pyval :=
  match e with
  | EvHandled s _ msg => if decide (s = self) then Some msg else None
  | _ => None
  end.

Definition handled (self : ref) (tr : list event) : list pyval :=
  omap (handled_by self) tr.

(** The trace of dequeuing and dispatching [msgs] one after the other. *)
Definition dispatch_events (self : ref) (pid : Pid) (msgs : list pyval) : list event :=
  flat_map (fun msg => [EvDequeued self msg; EvHandled self pid msg]) msgs.

Definition greenlet_of (w : World) (self : ref) : option greenlet :=
  greenlet_ <$> procs w !! self.

Definition exiting_of (w : World) (self : ref) : option bool :=
  is_exiting_ <$> procs w !! self.

Definition inbox_of (w : World) (self : ref) : option (list pyval) :=
  inbox_ <$> procs w !! self.

(** The handler was called with [None]. *)
Definition handles_none (e : event) : bool :=
  match e with
  | EvHandled _ _ msg => py_is_none msg
  | _ => false
  end.

(** The attributes of a process other than its inbox and the state of its
    greenlet. *)
Definition stable_attrs (p p' : Process) : Prop :=
  node_name_ p' = node_name_ p ∧
  pid_ p' = pid_ p ∧
  is_exiting_ p' = is_exiting_ p ∧
  monitors_ p' = monitors_ p ∧
  monitor_targets_ p' = monitor_targets_ p.

Definition is_exit (o : op) : bool :=
  match o with
  | Exit _ _ => true
  | _ => false
  end.

(** ** The greenlet's steps as a relation *)

(** The five ways a greenlet moves, read off [step]. *)
Inductive step_spec (w : World) (self : ref) (p : Process) : World → Prop :=
| step_leave_loop :
    greenlet_ p = AtWhile → is_exiting_ p = true →
    step_spec w self p (set_proc w self (with_greenlet p Dead))
| step_enter_pass :
    greenlet_ p = AtWhile → is_exiting_ p = false →
    step_spec w self p (set_proc w self (with_greenlet p AtGet))
| step_sentinel q :
    greenlet_ p = AtGet → inbox_ p = PyNone :: q →
    step_spec w self p
      (set_proc (emit (set_proc w self (with_inbox p q)) (EvDequeued self PyNone))
                self (with_greenlet (with_inbox p q) AtSleep))
| step_dispatch msg q :
    greenlet_ p = AtGet → inbox_ p = msg :: q → py_is_none msg = false →
    step_spec w self p
      (handle_one_inbox_message
         (emit (set_proc w self (with_inbox p q)) (EvDequeued self msg))
         self (with_inbox p q) msg)
| step_sleep :
    greenlet_ p = AtSleep →
    step_spec w self p (emit (set_proc w self (with_greenlet p AtWhile)) (EvSleep self)).

(** ** Derived worlds *)

(** The world once the greenlet of [self] (object [p]) has dequeued and
    dispatched [msgs] and [rest] remains in its inbox. *)
Definition after_dispatch (w : World) (self : ref) (p : Process)
    (msgs rest : list pyval) : World :=
  mkWorld (nodes w) (all_nodes w) (<[self := with_inbox p rest]> (procs w))
          (trace w ++ dispatch_events self (pid_ p) msgs).

(** [msgs] put in the inbox of [self] one after the other, as one sender
    does. *)
Definition puts (w : World) (self : ref) (msgs : list pyval) : World :=
  foldl (λ w' msg, put w' self msg) w msgs.

(** ** Example worlds *)

(** A world with one node, registered in [Node.all_nodes] under its name,
    and no process. *)
Definition one_node (name : string) : World :=
  mkWorld {[ 0 := Node.mk name ∅ ]} {[ name := 0 ]} ∅ [].

(** A process constructed on that node; its reference is [0], its pid [0]. *)
Definition one_process (name : string) : World := exec [Spawn 0] (one_node name).

(** A process whose flag was set (as a subclass's handler or any holder of
    the object may do: no method of [Process] does), with a message and the
    sentinel waiting. *)
Definition exiting_process : World :=
  set_proc (one_process "py@host") 0
    (mkProcess AtGet "py@host" [PyStr "m"; PyNone] 0%N true ∅ ∅).

(** Two pending messages, the greenlet inside [handle_inbox] at [get()];
    the same with the sentinel behind them. *)
Definition two_pending : World :=
  exec [Spawn 0; Turn 0; Put 0 (PyStr "a"); Put 0 (PyStr "b")] (one_node "py@host").

Definition two_pending_then_sentinel : World :=
  exec [Put 0 PyNone; Put 0 (PyStr "c")] two_pending.

(** The sentinel, then a message, in the inbox of a process whose greenlet
    is at [get()]. *)
Definition sentinel_then_message : World :=
  exec [Spawn 0; Put 0 PyNone; Put 0 (PyStr "m"); Turn 0] (one_node "py@host").

(** ** Further observations *)

(** The messages [get()] returned to the greenlet of [self], in order (each
    is printed at line 76 before anything else is done with it). *)
Definition dequeued_by (self : ref) (e : event) : option pyval :=
  match e with
  | EvDequeued s msg => if decide (s = self) then Some msg else None
  | _ => None
  end.

Definition dequeued (self : ref) (tr : list event) : list pyval :=
  omap (dequeued_by self) tr.

(** The messages a schedule puts in the inbox of [self], in order. *)
Definition put_to (self : ref) (o : op) : option pyval :=
  match o with
  | Put s msg => if decide (s = self) then Some msg else None
  | _ => None
  end.

Definition puts_of (self : ref) (ops : list op) : list pyval :=
  omap (put_to self) ops.

(** How often the greenlet of [self] yielded, and how often it dequeued the
    sentinel. *)
Definition sleeps (self : ref) (tr : list event) : nat :=
  length (filter (λ e, e = EvSleep self) tr).

Definition sentinels (self : ref) (tr : list event) : nat :=
  length (filter (λ e, e = EvDequeued self PyNone) tr).

(** [1] when [handle_inbox] has returned and the yield that follows it is
    still to come. *)
Definition yield_due (p : Process) : nat :=
  match greenlet_ p with
  | AtSleep => 1
  | _ => 0
  end.

(** The process whose greenlet an event comes from; [exit] runs in its
    caller. *)
Definition event_greenlet (e : event) : option ref :=
  match e with
  | EvDequeued s _ | EvHandled s _ _ | EvSleep s => Some s
  | EvOnExitProcess _ _ _ => None
  end.

(** Every registry entry leads to a process object that carries the entry's
    pid and the node's name. *)
Definition registry_consistent (w : World) : Prop :=
  ∀ node n pid r,
    nodes w !! node = Some n →
    Node.lookup n pid = Some r →
    ∃ p, procs w !! r = Some p ∧ pid_ p = pid ∧ node_name_ p = Node.node_name_ n.

(** A node that is an object but is not in [Node.all_nodes]. *)
Definition unlisted_node (name : string) : World :=
  mkWorld {[ 0 := Node.mk name ∅ ]} ∅ ∅ [].

(** An exiting process suspended in [get()] with two messages and no
    sentinel. *)
Definition exiting_without_sentinel : World :=
  set_proc (one_process "py@host") 0
    (mkProcess AtGet "py@host" [PyStr "a"; PyStr "b"] 0%N true ∅ ∅).

(** ** One operation, seen from one process *)

(** A turn of the greenlet of [s], as the events it adds and the new state
    of its process object [p]. *)
Inductive turn (s : ref) (p : Process) : list event → Process → Prop :=
| turn_leave_loop :
    greenlet_ p = AtWhile → is_exiting_ p = true →
    turn s p [] (with_greenlet p Dead)
| turn_enter_pass :
    greenlet_ p = AtWhile → is_exiting_ p = false →
    turn s p [] (with_greenlet p AtGet)
| turn_sentinel q :
    greenlet_ p = AtGet → inbox_ p = PyNone :: q →
    turn s p [EvDequeued s PyNone] (with_greenlet (with_inbox p q) AtSleep)
| turn_dispatch msg q :
    greenlet_ p = AtGet → inbox_ p = msg :: q → msg ≠ PyNone →
    turn s p [EvDequeued s msg; EvHandled s (pid_ p) msg] (with_inbox p q)
| turn_sleep :
    greenlet_ p = AtSleep →
    turn s p [EvSleep s] (with_greenlet p AtWhile).

(** What one operation of a schedule is to the process [self] (object [p]):
    the events it adds, the messages it puts in the inbox of [self], and the
    new state of the object.  Either a turn of its own greenlet, or a put in
    its inbox, or something that leaves the object alone and adds no event of
    its greenlet. *)
Inductive seen_by (self : ref) (p : Process) :
    list event → list pyval → Process → Prop :=
| seen_turn new p' :
    turn self p new p' → seen_by self p new [] p'
| seen_put msg :
    seen_by self p [] [msg] (with_inbox p (inbox_ p ++ [msg]))
| seen_other new :
    Forall (λ e, event_greenlet e ≠ Some self) new → seen_by self p new [] p.


(** * Properties *)

(** ** [exit] *)

Section exit_facts.

Context (w : World) (self : ref) (reason : pyval).

(** A call that returns found the process, the node registered under the
    process's node name, and called [on_exit_process] on it. *)
Lemma exit_Ok_inv w' :
  exit w self reason = Ok w' →
  ∃ p node n,
    procs w !! self = Some p ∧
    all_nodes w !! node_name_ p = Some node ∧
    nodes w !! node = Some n ∧
    w' = emit (set_node w node (Node.on_exit_process n (pid_ p) reason))
              (EvOnExitProcess node (pid_ p) reason).
Proof.
  unfold exit. intros Hexit.
  destruct (procs w !! self) as [p|]; [|done].
  destruct (all_nodes w !! node_name_ p) as [node|] eqn:Hname; [|done].
  destruct (nodes w !! node) as [n|] eqn:Hnode; [|done].
  exists p, node, n. by simplify_eq.
Qed.

(** The only way for [exit] to raise on a process object is the lookup in
    [Node.all_nodes] (or a name bound to no object). *)
Lemma exit_returns p node n :
  procs w !! self = Some p →
  all_nodes w !! node_name_ p = Some node →
  nodes w !! node = Some n →
  ∃ w', exit w self reason = Ok w'.
Proof. unfold exit. intros -> -> ->. eauto. Qed.

End exit_facts.

Lemma on_exit_process_twice n pid r1 r2 :
  Node.on_exit_process (Node.on_exit_process n pid r1) pid r2
  = Node.on_exit_process n pid r1.
Proof. unfold Node.on_exit_process. simpl. by rewrite delete_delete_eq. Qed.

(** C10. [exit(reason)] changes no attribute of the process (nor of any other
    process): the object stored at [self] is the same before and after.  The
    call's whole effect is one call [n.on_exit_process(self.pid_, reason)] on
    the node that [Node.all_nodes] gives for the process's node name: one
    event at the end of the trace, and that node's new state. *)
Theorem exit_changes_no_attribute w self reason w' :
  exit w self reason = Ok w' →
  ∃ p node n,
    procs w !! self = Some p ∧
    procs w' !! self = Some p ∧
    procs w' = procs w ∧
    all_nodes w' = all_nodes w ∧
    all_nodes w !! node_name_ p = Some node ∧
    nodes w !! node = Some n ∧
    nodes w' = <[node := Node.on_exit_process n (pid_ p) reason]> (nodes w) ∧
    trace w' = trace w ++ [EvOnExitProcess node (pid_ p) reason].
Proof.
  intros (p & node & n & Hp & Hname & Hnode & ->)%exit_Ok_inv.
  exists p, node, n. simpl. by repeat split.
Qed.

Lemma exit_changes_no_attribute_witness :
  ∃ w', exit (one_process "py@host") 0 (PyStr "normal") = Ok w' ∧
  ∃ p node n,
    procs (one_process "py@host") !! 0 = Some p ∧
    procs w' !! 0 = Some p ∧
    procs w' = procs (one_process "py@host") ∧
    all_nodes w' = all_nodes (one_process "py@host") ∧
    all_nodes (one_process "py@host") !! node_name_ p = Some node ∧
    nodes (one_process "py@host") !! node = Some n ∧
    nodes w' = <[node := Node.on_exit_process n (pid_ p) (PyStr "normal")]>
                 (nodes (one_process "py@host")) ∧
    trace w' = trace (one_process "py@host")
               ++ [EvOnExitProcess node (pid_ p) (PyStr "normal")].
Proof.
  eexists. split; [reflexivity|].
  apply (exit_changes_no_attribute (one_process "py@host") 0 (PyStr "normal")).
  reflexivity.
Defined.

(** C2. The code at the failing input: a process constructed on a registered
    node calls [exit("normal")]; the call returns, the node was asked to
    remove the pid with that reason, and [is_exiting_] is still [False]. *)
Example exit_leaves_is_exiting_false :
  ∃ w', exit (one_process "py@host") 0 (PyStr "normal") = Ok w' ∧
        exiting_of (one_process "py@host") 0 = Some false ∧
        exiting_of w' 0 = Some false ∧
        trace w' = [EvOnExitProcess 0 0%N (PyStr "normal")].
Proof. eexists. split; [reflexivity|]. by vm_compute. Qed.

(** C6. A second [exit] on a process whose first [exit] returned raises
    nothing and changes nothing: the node objects (and so every registry),
    [Node.all_nodes] and the process objects are as the first call left them.
    The node is asked again, with the second reason, and removing the absent
    pid does nothing. *)
Theorem exit_twice_is_noop w self r1 r2 w1 :
  exit w self r1 = Ok w1 →
  ∃ w2, exit w1 self r2 = Ok w2 ∧
        nodes w2 = nodes w1 ∧
        all_nodes w2 = all_nodes w1 ∧
        procs w2 = procs w1 ∧
        ∃ node pid, trace w2 = trace w1 ++ [EvOnExitProcess node pid r2].
Proof.
  intros (p & node & n & Hp & Hname & Hnode & ->)%exit_Ok_inv.
  eexists. split.
  - unfold exit. simpl. rewrite Hp, Hname, lookup_insert_eq. reflexivity.
  - simpl. rewrite on_exit_process_twice, insert_insert_eq. eauto 10.
Qed.

Lemma exit_twice_is_noop_witness :
  ∃ w1, exit (one_process "py@host") 0 (PyStr "normal") = Ok w1 ∧
  ∃ w2, exit w1 0 (PyStr "again") = Ok w2 ∧
        nodes w2 = nodes w1 ∧
        all_nodes w2 = all_nodes w1 ∧
        procs w2 = procs w1 ∧
        ∃ node pid, trace w2 = trace w1 ++ [EvOnExitProcess node pid (PyStr "again")].
Proof.
  eexists. split; [reflexivity|].
  apply (exit_twice_is_noop (one_process "py@host") 0 (PyStr "normal")).
  reflexivity.
Defined.

(** After [exit(reason)] has returned, the pid of the process is in no entry
    of the node that [Node.all_nodes] lists under the process's node name,
    the node [exit] notified. *)
Lemma exit_removes_pid_from_listed_node w self p reason w' :
  procs w !! self = Some p →
  exit w self reason = Ok w' →
  ∃ node n',
    all_nodes w' !! node_name_ p = Some node ∧
    nodes w' !! node = Some n' ∧
    Node.lookup n' (pid_ p) = None.
Proof.
  intros Hp (p' & node & n & Hp' & Hname & Hnode & ->)%exit_Ok_inv.
  assert (p' = p) as -> by congruence.
  exists node, (Node.on_exit_process n (pid_ p) reason). simpl.
  split; [done|]. split; [apply lookup_insert_eq|].
  unfold Node.lookup. simpl. apply lookup_delete_eq.
Qed.

(** ** [__init__] *)

(** The constructor returns whenever its argument is a node object. *)
Lemma init_returns w node n :
  nodes w !! node = Some n → ∃ self w', __init__ w node = Ok (self, w').
Proof. unfold __init__. intros ->. simpl. eauto. Qed.

Lemma init_Ok_inv w node self w' :
  __init__ w node = Ok (self, w') →
  ∃ n, nodes w !! node = Some n ∧
       self = fresh (dom (procs w)) ∧
       w' = set_proc (set_node w node (Node.register_new_process n self).2) self
              (mkProcess AtWhile (Node.node_name_ n) [] (Node.register_new_process n self).1
                         false ∅ ∅).
Proof.
  unfold __init__. destruct (nodes w !! node) as [n|]; [|done].
  simpl. intros [= <- <-]. eauto.
Qed.

Lemma fresh_ref_unused (w : World) : procs w !! fresh (dom (procs w)) = None.
Proof. apply not_elem_of_dom, is_fresh. Qed.

Lemma fresh_pid_unused (n : Node.t) :
  Node.processes_ n !! fresh (dom (Node.processes_ n)) = None.
Proof. apply not_elem_of_dom, is_fresh. Qed.

(** ** [step] and its relation *)

Lemma step_inv w self w' :
  step w self = Some w' → ∃ p, procs w !! self = Some p ∧ step_spec w self p w'.
Proof.
  unfold step, handle_inbox_turn.
  destruct (procs w !! self) as [p|]; [|done].
  intros Hstep. exists p. split; [done|].
  destruct (greenlet_ p) eqn:Hg; try done.
  - destruct (is_exiting_ p) eqn:He; simplify_eq; by constructor.
  - destruct (inbox_ p) as [|msg q] eqn:Hq; [done|]. simpl in Hstep.
    destruct msg; simpl in Hstep; simplify_eq; by econstructor.
  - simplify_eq. by constructor.
Qed.

Lemma step_spec_sound w self p w' :
  procs w !! self = Some p → step_spec w self p w' → step w self = Some w'.
Proof.
  intros Hp Hs. unfold step, handle_inbox_turn. rewrite Hp.
  destruct Hs as [Hg He|Hg He|q Hg Hq|msg q Hg Hq Hm|Hg];
    rewrite Hg; try rewrite He; try rewrite Hq; simpl; try rewrite Hm; done.
Qed.

(** ** What no operation changes *)

Lemma lookup_set_proc w s q self :
  procs (set_proc w s q) !! self = if decide (s = self) then Some q else procs w !! self.
Proof. apply lookup_insert. Qed.

Lemma stable_attrs_refl p : stable_attrs p p.
Proof. by repeat split. Qed.

Lemma stable_attrs_trans p1 p2 p3 :
  stable_attrs p1 p2 → stable_attrs p2 p3 → stable_attrs p1 p3.
Proof.
  unfold stable_attrs. intros (? & ? & ? & ? & ?) (? & ? & ? & ? & ?).
  repeat split; congruence.
Qed.

#[local] Hint Resolve stable_attrs_refl : core.

(** A turn of any greenlet changes, of any process, at most the inbox and
    the greenlet's state: [_run] and [handle_inbox] only read [is_exiting_],
    and the handler prints. *)
Lemma step_keeps_attrs w s w' self p :
  step w s = Some w' →
  procs w !! self = Some p →
  ∃ p', procs w' !! self = Some p' ∧ stable_attrs p p'.
Proof.
  intros (p0 & Hp0 & Hs)%step_inv Hp.
  destruct Hs; unfold handle_one_inbox_message; simpl; rewrite ?lookup_insert;
    (destruct (decide (s = self)) as [->|]; [|eauto]);
    simplify_eq; (eexists; split; [done|]); by repeat split.
Qed.

Lemma put_keeps_attrs w s msg self p :
  procs w !! self = Some p →
  ∃ p', procs (put w s msg) !! self = Some p' ∧ stable_attrs p p'.
Proof.
  intros Hp. unfold put.
  destruct (procs w !! s) as [p0|] eqn:Hp0; [|eauto].
  rewrite lookup_set_proc.
  destruct (decide (s = self)) as [->|]; [|eauto].
  simplify_eq. eexists. split; [done|]. by repeat split.
Qed.

(** Constructing another process allocates a new object. *)
Lemma init_keeps_procs w node self' w' self p :
  __init__ w node = Ok (self', w') →
  procs w !! self = Some p →
  procs w' !! self = Some p.
Proof.
  intros (n & Hnode & -> & ->)%init_Ok_inv Hp. simpl.
  rewrite lookup_insert_ne; [done|].
  intros Heq. pose proof (fresh_ref_unused w) as Hfresh. congruence.
Qed.

Lemma apply_keeps_attrs w o self p :
  procs w !! self = Some p →
  ∃ p', procs (apply w o) !! self = Some p' ∧ stable_attrs p p'.
Proof.
  intros Hp. destruct o as [node|s|s msg|s reason]; simpl.
  - destruct (__init__ w node) as [[self' w']|] eqn:Hinit; [|eauto].
    eauto using init_keeps_procs.
  - destruct (step w s) as [w'|] eqn:Hstep; [|eauto].
    eauto using step_keeps_attrs.
  - by apply put_keeps_attrs.
  - destruct (exit w s reason) as [w'|] eqn:Hexit; [|eauto].
    apply exit_Ok_inv in Hexit as (? & ? & ? & _ & _ & _ & ->). eauto.
Qed.

Lemma exec_keeps_attrs ops : ∀ w self p,
  procs w !! self = Some p →
  ∃ p', procs (exec ops w) !! self = Some p' ∧ stable_attrs p p'.
Proof.
  induction ops as [|o ops IH]; intros w self p Hp; simpl; [eauto|].
  destruct (apply_keeps_attrs w o self p Hp) as (p1 & Hp1 & Hst1).
  destruct (IH (apply w o) self p1 Hp1) as (p2 & Hp2 & Hst2).
  eauto using stable_attrs_trans.
Qed.

(** ** Registry entries *)

(** Greenlet turns and puts do not touch the nodes. *)
Lemma step_nodes w s w' : step w s = Some w' → nodes w' = nodes w.
Proof. intros (p & _ & Hs)%step_inv. by destruct Hs. Qed.

Lemma put_nodes w s msg : nodes (put w s msg) = nodes w.
Proof. unfold put. by destruct (procs w !! s). Qed.

(** Registering a new process keeps the entries a node has: the pid issued
    is not one of theirs. *)
Lemma init_keeps_registered w node0 self0 w' node n pid self :
  __init__ w node0 = Ok (self0, w') →
  nodes w !! node = Some n →
  Node.lookup n pid = Some self →
  ∃ n', nodes w' !! node = Some n' ∧ Node.lookup n' pid = Some self.
Proof.
  intros (n0 & Hnode0 & -> & ->)%init_Ok_inv Hnode Hpid. simpl.
  destruct (decide (node0 = node)) as [->|Hne].
  - rewrite lookup_insert_eq. eexists. split; [done|].
    assert (n0 = n) as -> by congruence.
    unfold Node.lookup in *. simpl. rewrite lookup_insert_ne; [done|].
    intros Heq. pose proof (fresh_pid_unused n) as Hfresh. congruence.
  - rewrite lookup_insert_ne by done. eauto.
Qed.

(** Only [exit] removes an entry. *)
Lemma apply_keeps_registered w o node n pid self :
  is_exit o = false →
  nodes w !! node = Some n →
  Node.lookup n pid = Some self →
  ∃ n', nodes (apply w o) !! node = Some n' ∧ Node.lookup n' pid = Some self.
Proof.
  intros Ho Hnode Hpid. destruct o as [node0|s|s msg|s reason]; simpl; [| | |done].
  - destruct (__init__ w node0) as [[self0 w']|] eqn:Hinit; [|eauto].
    eauto using init_keeps_registered.
  - destruct (step w s) as [w'|] eqn:Hstep; [|eauto].
    rewrite (step_nodes _ _ _ Hstep). eauto.
  - rewrite put_nodes. eauto.
Qed.

Lemma exec_keeps_registered ops : ∀ w node n pid self,
  Forall (λ o, is_exit o = false) ops →
  nodes w !! node = Some n →
  Node.lookup n pid = Some self →
  ∃ n', nodes (exec ops w) !! node = Some n' ∧ Node.lookup n' pid = Some self.
Proof.
  induction ops as [|o ops IH]; intros w node n pid self Hops Hnode Hpid; simpl; [eauto|].
  apply Forall_cons in Hops as [Ho Hops].
  destruct (apply_keeps_registered w o node n pid self Ho Hnode Hpid) as (n1 & Hnode1 & Hpid1).
  by apply (IH (apply w o) node n1).
Qed.

(** ** [__init__] registers *)

(** C4. When [Process(node)] returns, the new object (which did not exist
    before the call) holds in [pid_] the pid that
    [node.register_new_process(self)] issued, a pid that node had not
    registered, and the node's registry maps that pid to the new object.  The
    other attributes are as the constructor assigns them and the greenlet is
    scheduled.  The entry then stays, and [pid_] with it, under every schedule
    of constructions, greenlet turns and puts: only an [exit] call removes
    it. *)
Theorem init_registers w node self w' :
  __init__ w node = Ok (self, w') →
  ∃ n p n',
    nodes w !! node = Some n ∧
    procs w !! self = None ∧
    procs w' !! self = Some p ∧
    pid_ p = (Node.register_new_process n self).1 ∧
    Node.lookup n (pid_ p) = None ∧
    nodes w' !! node = Some n' ∧
    Node.lookup n' (pid_ p) = Some self ∧
    node_name_ p = Node.node_name_ n ∧
    inbox_ p = [] ∧
    is_exiting_ p = false ∧
    monitors_ p = ∅ ∧ monitor_targets_ p = ∅ ∧
    greenlet_ p = AtWhile ∧
    ∀ ops,
      Forall (λ o, is_exit o = false) ops →
      ∃ n'' p'',
        nodes (exec ops w') !! node = Some n'' ∧
        procs (exec ops w') !! self = Some p'' ∧
        pid_ p'' = pid_ p ∧
        Node.lookup n'' (pid_ p'') = Some self.
Proof.
  intros (n & Hnode & -> & ->)%init_Ok_inv.
  set (self := fresh (dom (procs w))).
  set (p := mkProcess AtWhile (Node.node_name_ n) []
                      (Node.register_new_process n self).1 false ∅ ∅).
  set (n' := (Node.register_new_process n self).2).
  set (w' := set_proc (set_node w node n') self p).
  assert (procs w' !! self = Some p) as Hp' by apply lookup_insert_eq.
  assert (nodes w' !! node = Some n') as Hnode' by apply lookup_insert_eq.
  assert (Node.lookup n' (pid_ p) = Some self) as Hreg by apply lookup_insert_eq.
  exists n, p, n'.
  split; [done|]. split; [apply fresh_ref_unused|].
  split; [done|]. split; [done|]. split; [apply fresh_pid_unused|].
  split; [done|]. split; [done|].
  do 6 (split; [done|]).
  intros ops Hops.
  destruct (exec_keeps_registered ops w' node n' (pid_ p) self Hops Hnode' Hreg)
    as (n'' & Hnode'' & Hreg'').
  destruct (exec_keeps_attrs ops w' self p Hp') as (p'' & Hp'' & _ & Hpid & _).
  exists n'', p''. by rewrite Hpid.
Qed.

Lemma init_registers_witness :
  ∃ self w',
    __init__ (one_node "py@host") 0 = Ok (self, w') ∧
    ∃ n p n',
      nodes (one_node "py@host") !! 0 = Some n ∧
      procs (one_node "py@host") !! self = None ∧
      procs w' !! self = Some p ∧
      pid_ p = (Node.register_new_process n self).1 ∧
      Node.lookup n (pid_ p) = None ∧
      nodes w' !! 0 = Some n' ∧
      Node.lookup n' (pid_ p) = Some self ∧
      node_name_ p = Node.node_name_ n ∧
      inbox_ p = [] ∧
      is_exiting_ p = false ∧
      monitors_ p = ∅ ∧ monitor_targets_ p = ∅ ∧
      greenlet_ p = AtWhile ∧
      ∀ ops,
        Forall (λ o, is_exit o = false) ops →
        ∃ n'' p'',
          nodes (exec ops w') !! 0 = Some n'' ∧
          procs (exec ops w') !! self = Some p'' ∧
          pid_ p'' = pid_ p ∧
          Node.lookup n'' (pid_ p'') = Some self.
Proof.
  eexists. eexists. split; [reflexivity|].
  apply (init_registers (one_node "py@host") 0). reflexivity.
Defined.

(** ** [is_exiting_] is monotonic *)

(** C8. Once [is_exiting_] of a process is true it stays true under every
    schedule of constructions, greenlet turns (loop tests, dequeues,
    dispatches, yields), puts and [exit] calls. *)
Theorem is_exiting_never_reverts ops w self p :
  procs w !! self = Some p →
  is_exiting_ p = true →
  exiting_of (exec ops w) self = Some true.
Proof.
  intros Hp Htrue.
  destruct (exec_keeps_attrs ops w self p Hp) as (p' & Hp' & _ & _ & He & _).
  unfold exiting_of. rewrite Hp'. simpl. congruence.
Qed.

Lemma is_exiting_never_reverts_witness :
  exiting_of
    (exec [Spawn 0; Turn 0; Put 0 (PyInt 7); Turn 0; Exit 0 PyNone; Turn 0; Turn 0;
           Exit 0 (PyStr "again"); Spawn 0; Turn 1]
          exiting_process) 0
  = Some true.
Proof.
  eapply is_exiting_never_reverts; [reflexivity | reflexivity].
Defined.

(** ** The sentinel and the handler *)

Lemma step_trace w s w' :
  step w s = Some w' →
  ∃ new, trace w' = trace w ++ new ∧ Forall (λ e, handles_none e = false) new.
Proof.
  intros (p & Hp & Hs)%step_inv.
  destruct Hs as [| | |msg q _ _ Hmsg|]; simpl.
  - exists []. by rewrite app_nil_r.
  - exists []. by rewrite app_nil_r.
  - exists [EvDequeued s PyNone]. split; [done|]. by repeat constructor.
  - exists [EvDequeued s msg; EvHandled s (pid_ p) msg]. rewrite <- app_assoc.
    split; [done|]. by repeat constructor.
  - exists [EvSleep s]. split; [done|]. by repeat constructor.
Qed.

Lemma apply_trace w o :
  ∃ new, trace (apply w o) = trace w ++ new ∧ Forall (λ e, handles_none e = false) new.
Proof.
  destruct o as [node|s|s msg|s reason]; simpl.
  - destruct (__init__ w node) as [[self' w']|] eqn:Hinit.
    + apply init_Ok_inv in Hinit as (n & _ & _ & ->). simpl.
      exists []. by rewrite app_nil_r.
    + exists []. by rewrite app_nil_r.
  - destruct (step w s) as [w'|] eqn:Hstep; [by apply step_trace in Hstep|].
    exists []. by rewrite app_nil_r.
  - exists []. rewrite app_nil_r. split; [|done].
    unfold put. by destruct (procs w !! s).
  - destruct (exit w s reason) as [w'|] eqn:Hexit.
    + apply exit_Ok_inv in Hexit as (p & node & n & _ & _ & _ & ->). simpl.
      eexists. split; [done|]. by repeat constructor.
    + exists []. by rewrite app_nil_r.
Qed.

Lemma exec_trace ops : ∀ w,
  ∃ new, trace (exec ops w) = trace w ++ new ∧ Forall (λ e, handles_none e = false) new.
Proof.
  induction ops as [|o ops IH]; intros w; simpl.
  - exists []. by rewrite app_nil_r.
  - destruct (apply_trace w o) as (new1 & Htr1 & Hall1).
    destruct (IH (apply w o)) as (new2 & Htr2 & Hall2).
    exists (new1 ++ new2). rewrite Htr2, Htr1, app_assoc.
    split; [done|]. by apply Forall_app.
Qed.

(** Dequeuing the sentinel: no call of the handler, and [handle_inbox]
    returns to [_run], which is about to yield. *)
Lemma step_on_sentinel w self p q :
  procs w !! self = Some p →
  greenlet_ p = AtGet →
  inbox_ p = PyNone :: q →
  ∃ w', step w self = Some w' ∧
        procs w' = <[self := with_greenlet (with_inbox p q) AtSleep]> (procs w) ∧
        nodes w' = nodes w ∧ all_nodes w' = all_nodes w ∧
        trace w' = trace w ++ [EvDequeued self PyNone].
Proof.
  intros Hp Hg Hq. eexists. split.
  - apply (step_spec_sound _ _ p); [done|]. by apply step_sentinel.
  - simpl. by rewrite insert_insert_eq.
Qed.

(** C9. Under every schedule, whatever the mailboxes hold, no call of
    [handle_one_inbox_message] added to the trace has the argument [None];
    and a dequeued [None] ends the drain pass instead: the greenlet leaves
    [handle_inbox] with the rest of the inbox untouched, having printed the
    dequeue and nothing else. *)
Theorem handler_never_gets_None :
  (∀ ops w, ∃ new,
      trace (exec ops w) = trace w ++ new ∧
      ∀ self pid msg, EvHandled self pid msg ∈ new → msg ≠ PyNone)
  ∧
  (∀ w self p q,
      procs w !! self = Some p →
      greenlet_ p = AtGet →
      inbox_ p = PyNone :: q →
      ∃ w', step w self = Some w' ∧
            greenlet_of w' self = Some AtSleep ∧
            inbox_of w' self = Some q ∧
            trace w' = trace w ++ [EvDequeued self PyNone]).
Proof.
  split.
  - intros ops w. destruct (exec_trace ops w) as (new & Htr & Hall).
    exists new. split; [done|]. intros self pid msg Hin ->.
    rewrite Forall_forall in Hall. by apply Hall in Hin.
  - intros w self p q Hp Hg Hq.
    destruct (step_on_sentinel w self p q Hp Hg Hq) as (w' & Hstep & Hprocs & _ & _ & Htr).
    exists w'. unfold greenlet_of, inbox_of. rewrite Hprocs, lookup_insert_eq. done.
Qed.

Lemma handler_never_gets_None_witness :
  (∃ new,
      trace (exec [Spawn 0; Put 0 PyNone; Put 0 (PyStr "m"); Turn 0; Turn 0; Turn 0;
                   Turn 0; Turn 0] (one_node "py@host"))
      = trace (one_node "py@host") ++ new ∧
      ∀ self pid msg, EvHandled self pid msg ∈ new → msg ≠ PyNone)
  ∧
  (∃ w', step (exec [Spawn 0; Put 0 PyNone; Turn 0] (one_node "py@host")) 0 = Some w' ∧
         greenlet_of w' 0 = Some AtSleep ∧
         inbox_of w' 0 = Some [] ∧
         trace w' = trace (exec [Spawn 0; Put 0 PyNone; Turn 0] (one_node "py@host"))
                    ++ [EvDequeued 0 PyNone]).
Proof.
  split.
  - apply (proj1 handler_never_gets_None).
  - eapply (proj2 handler_never_gets_None); reflexivity.
Defined.

(** ** A drain pass *)

Section drain.

Context (self : ref).

Lemma after_dispatch_nil w p :
  procs w !! self = Some p → after_dispatch w self p [] (inbox_ p) = w.
Proof.
  intros Hp. destruct w as [ns an ps tr], p as [g nm q pid ex ms mt].
  unfold after_dispatch, with_inbox. simpl in *.
  by rewrite app_nil_r, insert_id.
Qed.

Lemma after_dispatch_cons w p msg msgs rest :
  after_dispatch (after_dispatch w self p [msg] (msgs ++ rest)) self
                 (with_inbox p (msgs ++ rest)) msgs rest
  = after_dispatch w self p (msg :: msgs) rest.
Proof.
  unfold after_dispatch. simpl.
  by rewrite insert_insert_eq, <- app_assoc.
Qed.

(** Dequeuing a message that is not [None] dispatches it, and the greenlet
    is back at [get()]. *)
Lemma step_on_message w p msg q :
  procs w !! self = Some p →
  greenlet_ p = AtGet →
  inbox_ p = msg :: q →
  py_is_none msg = false →
  step w self = Some (after_dispatch w self p [msg] q).
Proof.
  intros Hp Hg Hq Hmsg.
  rewrite (step_spec_sound w self p _ Hp (step_dispatch w self p msg q Hg Hq Hmsg)).
  unfold after_dispatch, handle_one_inbox_message, emit. simpl.
  by rewrite <- app_assoc.
Qed.

(** [get()] on an empty inbox: the greenlet cannot move. *)
Lemma step_on_empty w p :
  procs w !! self = Some p → greenlet_ p = AtGet → inbox_ p = [] →
  step w self = None.
Proof. unfold step, handle_inbox_turn. by intros -> -> ->. Qed.

Lemma run_blocked fuel w : step w self = None → _run fuel w self = w.
Proof. intros Hs. destruct fuel; simpl; [done|]. by rewrite Hs. Qed.

Lemma handle_inbox_at_get fuel w p :
  procs w !! self = Some p → greenlet_ p = AtGet →
  handle_inbox (S fuel) w self
  = match step w self with
    | Some w' => handle_inbox fuel w' self
    | None => w
    end.
Proof. intros Hp Hg. simpl. unfold step. by rewrite Hp, Hg. Qed.

Lemma handle_inbox_elsewhere fuel w p :
  procs w !! self = Some p → greenlet_ p ≠ AtGet → handle_inbox fuel w self = w.
Proof.
  intros Hp Hg. destruct fuel; simpl; [done|]. rewrite Hp.
  by destruct (greenlet_ p).
Qed.

(** The greenlet dispatches a prefix of messages, none of them [None], in
    as many steps, inside one pass. *)
Lemma run_dispatch msgs : ∀ w p rest fuel,
  procs w !! self = Some p →
  greenlet_ p = AtGet →
  inbox_ p = msgs ++ rest →
  Forall (λ m, m ≠ PyNone) msgs →
  _run (length msgs + fuel) w self = _run fuel (after_dispatch w self p msgs rest) self.
Proof.
  induction msgs as [|msg msgs IH]; intros w p rest fuel Hp Hg Hq Hall.
  - simpl in *. subst rest. by rewrite after_dispatch_nil.
  - apply Forall_cons in Hall as [Hmsg Hall]. simpl.
    rewrite (step_on_message w p msg (msgs ++ rest)); [|done..|by destruct msg].
    rewrite (IH _ (with_inbox p (msgs ++ rest)) rest); [|by apply lookup_insert_eq|done..].
    by rewrite after_dispatch_cons.
Qed.

Lemma handle_inbox_dispatch msgs : ∀ w p rest fuel,
  procs w !! self = Some p →
  greenlet_ p = AtGet →
  inbox_ p = msgs ++ rest →
  Forall (λ m, m ≠ PyNone) msgs →
  handle_inbox (length msgs + fuel) w self
  = handle_inbox fuel (after_dispatch w self p msgs rest) self.
Proof.
  induction msgs as [|msg msgs IH]; intros w p rest fuel Hp Hg Hq Hall.
  - simpl in *. subst rest. by rewrite after_dispatch_nil.
  - apply Forall_cons in Hall as [Hmsg Hall].
    change (length (msg :: msgs) + fuel) with (S (length msgs + fuel)).
    rewrite (handle_inbox_at_get _ w p); [|done..].
    rewrite (step_on_message w p msg (msgs ++ rest)); [|done..|by destruct msg].
    rewrite (IH _ (with_inbox p (msgs ++ rest)) rest); [|by apply lookup_insert_eq|done..].
    by rewrite after_dispatch_cons.
Qed.

Lemma handled_app tr1 tr2 :
  handled self (tr1 ++ tr2) = handled self tr1 ++ handled self tr2.
Proof. apply omap_app. Qed.

Lemma handled_dispatch_events pid msgs :
  handled self (dispatch_events self pid msgs) = msgs.
Proof.
  induction msgs as [|msg msgs IH]; [done|].
  change (dispatch_events self pid (msg :: msgs))
    with ([EvDequeued self msg; EvHandled self pid msg] ++ dispatch_events self pid msgs).
  rewrite handled_app, IH. unfold handled. simpl.
  by rewrite decide_True.
Qed.

End drain.

Section passes.

Context (self : ref).

Lemma with_inbox_same p : with_inbox p (inbox_ p) = p.
Proof. by destruct p. Qed.

Lemma puts_spec msgs : ∀ w p,
  procs w !! self = Some p →
  procs (puts w self msgs) = <[self := with_inbox p (inbox_ p ++ msgs)]> (procs w) ∧
  nodes (puts w self msgs) = nodes w ∧
  all_nodes (puts w self msgs) = all_nodes w ∧
  trace (puts w self msgs) = trace w.
Proof.
  induction msgs as [|msg msgs IH]; intros w p Hp.
  - simpl. by rewrite app_nil_r, with_inbox_same, insert_id.
  - unfold puts. simpl. fold (puts (put w self msg) self msgs).
    assert (put w self msg = set_proc w self (with_inbox p (inbox_ p ++ [msg]))) as ->.
    { unfold put. by rewrite Hp. }
    destruct (IH (set_proc w self (with_inbox p (inbox_ p ++ [msg])))
                 (with_inbox p (inbox_ p ++ [msg]))) as (-> & -> & -> & ->).
    { apply lookup_insert_eq. }
    simpl. by rewrite insert_insert_eq, <- app_assoc.
Qed.

(** A pass over an inbox without sentinel dispatches everything and leaves
    the greenlet suspended in [get()], inside the pass. *)
Lemma run_until_empty w p msgs fuel :
  procs w !! self = Some p →
  greenlet_ p = AtGet →
  inbox_ p = msgs →
  Forall (λ m, m ≠ PyNone) msgs →
  length msgs ≤ fuel →
  _run fuel w self = after_dispatch w self p msgs [].
Proof.
  intros Hp Hg Hq Hall Hfuel.
  replace fuel with (length msgs + (fuel - length msgs)) by lia.
  rewrite (run_dispatch self msgs w p []); [|done|done|by rewrite app_nil_r|done].
  apply run_blocked.
  apply (step_on_empty self _ (with_inbox p [])); [apply lookup_insert_eq|done..].
Qed.

Lemma handle_inbox_until_empty w p msgs fuel :
  procs w !! self = Some p →
  greenlet_ p = AtGet →
  inbox_ p = msgs →
  Forall (λ m, m ≠ PyNone) msgs →
  length msgs ≤ fuel →
  handle_inbox fuel w self = after_dispatch w self p msgs [].
Proof.
  intros Hp Hg Hq Hall Hfuel.
  replace fuel with (length msgs + (fuel - length msgs)) by lia.
  rewrite (handle_inbox_dispatch self msgs w p []); [|done|done|by rewrite app_nil_r|done].
  destruct (fuel - length msgs) as [|k]; [done|].
  rewrite (handle_inbox_at_get self _ _ (with_inbox p []));
    [|apply lookup_insert_eq|done].
  by rewrite (step_on_empty self _ (with_inbox p [])); [|apply lookup_insert_eq|..].
Qed.

(** A pass over an inbox with a sentinel dispatches what precedes it,
    dequeues it, and returns. *)
Lemma handle_inbox_until_sentinel w p msgs rest fuel :
  procs w !! self = Some p →
  greenlet_ p = AtGet →
  inbox_ p = msgs ++ PyNone :: rest →
  Forall (λ m, m ≠ PyNone) msgs →
  S (length msgs) ≤ fuel →
  procs (handle_inbox fuel w self)
    = <[self := with_greenlet (with_inbox p rest) AtSleep]> (procs w) ∧
  nodes (handle_inbox fuel w self) = nodes w ∧
  all_nodes (handle_inbox fuel w self) = all_nodes w ∧
  trace (handle_inbox fuel w self)
    = trace w ++ dispatch_events self (pid_ p) msgs ++ [EvDequeued self PyNone].
Proof.
  intros Hp Hg Hq Hall Hfuel.
  replace fuel with (length msgs + S (fuel - S (length msgs))) by lia.
  rewrite (handle_inbox_dispatch self msgs w p (PyNone :: rest)); [|done..].
  set (wd := after_dispatch w self p msgs (PyNone :: rest)).
  assert (procs wd !! self = Some (with_inbox p (PyNone :: rest))) as Hpd
    by apply lookup_insert_eq.
  rewrite (handle_inbox_at_get self _ wd _ Hpd Hg).
  destruct (step_on_sentinel wd self _ rest Hpd Hg eq_refl)
    as (w' & -> & Hprocs & Hnodes & Hall_nodes & Htrace).
  rewrite (handle_inbox_elsewhere self _ w' (with_greenlet (with_inbox p rest) AtSleep)).
  - rewrite Hprocs, Hnodes, Hall_nodes, Htrace. subst wd. simpl.
    by rewrite insert_insert_eq, <- app_assoc.
  - rewrite Hprocs. apply lookup_insert_eq.
  - done.
Qed.

End passes.

(** C5. Messages [msgs], none of them the sentinel, are put one after the
    other in the empty inbox of an actor that has not begun draining (its
    greenlet is scheduled and about to test the loop condition with
    [is_exiting_] false, or is suspended in [get()]).  Running the greenlet
    then calls the handler with exactly [msgs], in that order. *)
Theorem handled_in_put_order w self p msgs fuel :
  procs w !! self = Some p →
  greenlet_ p = AtGet ∨ (greenlet_ p = AtWhile ∧ is_exiting_ p = false) →
  inbox_ p = [] →
  Forall (λ m, m ≠ PyNone) msgs →
  S (length msgs) ≤ fuel →
  handled self (trace (_run fuel (puts w self msgs) self))
  = handled self (trace w) ++ msgs.
Proof.
  intros Hp Hstart Hq Hall Hfuel.
  destruct (puts_spec self msgs w p Hp) as (Hprocs & _ & _ & Htrace).
  rewrite Hq in Hprocs. simpl in Hprocs.
  set (w1 := puts w self msgs) in *.
  assert (procs w1 !! self = Some (with_inbox p msgs)) as Hp1.
  { rewrite Hprocs. apply lookup_insert_eq. }
  destruct Hstart as [Hg|[Hg He]].
  - rewrite (run_until_empty self w1 _ msgs fuel Hp1); [|done|done|done|lia].
    simpl. by rewrite handled_app, handled_dispatch_events, Htrace.
  - destruct fuel as [|fuel]; [lia|]. simpl.
    rewrite (step_spec_sound w1 self _ _ Hp1
               (step_enter_pass w1 self (with_inbox p msgs) Hg He)).
    rewrite (run_until_empty self _ (with_greenlet (with_inbox p msgs) AtGet) msgs fuel);
      [|apply lookup_insert_eq|done|done|done|lia].
    simpl. by rewrite handled_app, handled_dispatch_events, Htrace.
Qed.

Lemma handled_in_put_order_witness :
  handled 0 (trace (_run 4 (puts (one_process "py@host") 0
                                  [PyStr "a"; PyStr "b"; PyStr "c"]) 0))
  = handled 0 (trace (one_process "py@host")) ++ [PyStr "a"; PyStr "b"; PyStr "c"].
Proof.
  eapply (handled_in_put_order (one_process "py@host") 0).
  - reflexivity.
  - right. split; reflexivity.
  - reflexivity.
  - repeat constructor; discriminate.
  - simpl. lia.
Defined.

(** C3, as stated, fails where it says that the pass stops when the queue is
    momentarily empty.  The actor has dispatched its two pending messages and
    its queue is empty: the greenlet is still inside [handle_inbox], at
    [get()], and cannot move, so [_run] has not reached [gevent.sleep(0)] and
    nothing was yielded.  When a third message arrives the same pass goes on:
    the trace shows the three dispatches with no yield in between. *)
Lemma empty_queue_does_not_end_pass :
  inbox_of (handle_inbox 9 two_pending 0) 0 = Some [] ∧
  greenlet_of (handle_inbox 9 two_pending 0) 0 = Some AtGet ∧
  step (handle_inbox 9 two_pending 0) 0 = None ∧
  trace (handle_inbox 9 two_pending 0)
    = [EvDequeued 0 (PyStr "a"); EvHandled 0 0%N (PyStr "a");
       EvDequeued 0 (PyStr "b"); EvHandled 0 0%N (PyStr "b")] ∧
  trace (_run 9 (put (handle_inbox 9 two_pending 0) 0 (PyStr "c")) 0)
    = [EvDequeued 0 (PyStr "a"); EvHandled 0 0%N (PyStr "a");
       EvDequeued 0 (PyStr "b"); EvHandled 0 0%N (PyStr "b");
       EvDequeued 0 (PyStr "c"); EvHandled 0 0%N (PyStr "c")].
Proof. by vm_compute. Qed.

(** C3, amended.  A drain pass entered with [msgs] (no sentinel among them)
    at the front of the inbox dispatches them in order, and

    - if the sentinel follows, the pass dequeues it, dispatches nothing for
      it and returns, leaving [rest] in the inbox; [_run] then yields
      ([gevent.sleep(0)]) and goes back to its loop test;
    - if nothing follows, the pass does not end: the greenlet stays
      suspended in [get()] with nothing yielded by [_run], and a message put
      later is dequeued and dispatched by the same pass. *)
Theorem drain_pass_ends_only_on_sentinel w self p msgs :
  procs w !! self = Some p →
  greenlet_ p = AtGet →
  Forall (λ m, m ≠ PyNone) msgs →
  (∀ rest fuel,
      inbox_ p = msgs ++ PyNone :: rest →
      S (length msgs) ≤ fuel →
      ∃ w', handle_inbox fuel w self = w' ∧
            greenlet_of w' self = Some AtSleep ∧
            inbox_of w' self = Some rest ∧
            trace w' = trace w ++ dispatch_events self (pid_ p) msgs
                               ++ [EvDequeued self PyNone] ∧
            ∃ w'', step w' self = Some w'' ∧
                   trace w'' = trace w' ++ [EvSleep self] ∧
                   greenlet_of w'' self = Some AtWhile)
  ∧
  (∀ fuel,
      inbox_ p = msgs →
      length msgs ≤ fuel →
      ∃ w', handle_inbox fuel w self = w' ∧
            greenlet_of w' self = Some AtGet ∧
            inbox_of w' self = Some [] ∧
            trace w' = trace w ++ dispatch_events self (pid_ p) msgs ∧
            step w' self = None ∧
            ∀ msg fuel',
              msg ≠ PyNone →
              1 ≤ fuel' →
              ∃ w'', handle_inbox fuel' (put w' self msg) self = w'' ∧
                     greenlet_of w'' self = Some AtGet ∧
                     trace w'' = trace w' ++ [EvDequeued self msg;
                                              EvHandled self (pid_ p) msg]).
Proof.
  intros Hp Hg Hall. split.
  - intros rest fuel Hq Hfuel.
    destruct (handle_inbox_until_sentinel self w p msgs rest fuel Hp Hg Hq Hall Hfuel)
      as (Hprocs & _ & _ & Htrace).
    eexists. split; [done|].
    unfold greenlet_of, inbox_of. rewrite Hprocs, lookup_insert_eq. simpl.
    split; [done|]. split; [done|]. split; [done|].
    eexists. split.
    + eapply step_spec_sound; [by rewrite Hprocs, lookup_insert_eq|].
      by apply step_sleep.
    + simpl. by rewrite lookup_insert_eq.
  - intros fuel Hq Hfuel.
    rewrite (handle_inbox_until_empty self w p msgs fuel Hp Hg Hq Hall Hfuel).
    set (w' := after_dispatch w self p msgs []).
    assert (procs w' !! self = Some (with_inbox p [])) as Hp' by apply lookup_insert_eq.
    exists w'. split; [done|].
    unfold greenlet_of, inbox_of. rewrite Hp'. simpl.
    split; [by rewrite Hg|]. split; [done|]. split; [done|].
    split; [by apply (step_on_empty self w' (with_inbox p []))|].
    intros msg fuel' Hmsg Hfuel'.
    assert (put w' self msg = set_proc w' self (with_inbox p [msg])) as ->.
    { unfold put. by rewrite Hp'. }
    rewrite (handle_inbox_until_empty self _ (with_inbox p [msg]) [msg] fuel');
      [|apply lookup_insert_eq|done|done|by repeat constructor|simpl; lia].
    eexists. split; [done|]. simpl.
    rewrite insert_insert_eq, lookup_insert_eq. simpl. by rewrite Hg.
Qed.

Lemma drain_pass_ends_only_on_sentinel_witness :
  (∃ w', handle_inbox 3 two_pending_then_sentinel 0 = w' ∧
         greenlet_of w' 0 = Some AtSleep ∧
         inbox_of w' 0 = Some [PyStr "c"] ∧
         trace w' = trace two_pending_then_sentinel
                    ++ dispatch_events 0 0%N [PyStr "a"; PyStr "b"]
                    ++ [EvDequeued 0 PyNone] ∧
         ∃ w'', step w' 0 = Some w'' ∧
                trace w'' = trace w' ++ [EvSleep 0] ∧
                greenlet_of w'' 0 = Some AtWhile)
  ∧
  (∃ w', handle_inbox 2 two_pending 0 = w' ∧
         greenlet_of w' 0 = Some AtGet ∧
         inbox_of w' 0 = Some [] ∧
         trace w' = trace two_pending ++ dispatch_events 0 0%N [PyStr "a"; PyStr "b"] ∧
         step w' 0 = None ∧
         ∀ msg fuel',
           msg ≠ PyNone →
           1 ≤ fuel' →
           ∃ w'', handle_inbox fuel' (put w' 0 msg) 0 = w'' ∧
                  greenlet_of w'' 0 = Some AtGet ∧
                  trace w'' = trace w' ++ [EvDequeued 0 msg; EvHandled 0 0%N msg]).
Proof.
  split.
  - eapply (proj1 (drain_pass_ends_only_on_sentinel two_pending_then_sentinel 0 _
                     [PyStr "a"; PyStr "b"] eq_refl eq_refl
                     ltac:(repeat constructor; discriminate))
              [PyStr "c"] 3); [reflexivity | simpl; lia].
  - eapply (proj2 (drain_pass_ends_only_on_sentinel two_pending 0 _
                     [PyStr "a"; PyStr "b"] eq_refl eq_refl
                     ltac:(repeat constructor; discriminate))
              2); [reflexivity | simpl; lia].
Defined.

(** ** The run loop *)

Section run_loop.

Context (self : ref).

(** While [is_exiting_] is false the loop test never fails, so the greenlet
    never finishes. *)
Lemma step_stays_alive w p w' :
  step w self = Some w' →
  procs w !! self = Some p →
  is_exiting_ p = false →
  ∃ p', procs w' !! self = Some p' ∧ is_exiting_ p' = false ∧ greenlet_ p' ≠ Dead.
Proof.
  intros (p0 & Hp0 & Hs)%step_inv Hp He.
  assert (p0 = p) as -> by congruence.
  destruct Hs as [Hg He'|Hg He'|q Hg Hq|msg q Hg Hq Hm|Hg];
    [congruence|..];
    unfold handle_one_inbox_message; simpl; rewrite ?lookup_insert_eq;
    (eexists; split; [done|]; simpl; split; [done | by rewrite ?Hg]).
Qed.

Lemma run_stays_alive fuel : ∀ w p,
  procs w !! self = Some p →
  is_exiting_ p = false →
  greenlet_ p ≠ Dead →
  greenlet_of (_run fuel w self) self ≠ Some Dead.
Proof.
  induction fuel as [|fuel IH]; intros w p Hp He Hg; simpl.
  - unfold greenlet_of. rewrite Hp. simpl. congruence.
  - destruct (step w self) as [w'|] eqn:Hstep.
    + destruct (step_stays_alive w p w' Hstep Hp He) as (p' & Hp' & He' & Hg').
      by apply (IH w' p').
    + unfold greenlet_of. rewrite Hp. simpl. congruence.
Qed.

(** After a pass has returned, [_run] yields and tests the flag: when it
    is true the loop is left and the greenlet is finished, whatever the
    inbox still holds. *)
Lemma run_after_pass_exiting w p fuel :
  procs w !! self = Some p →
  greenlet_ p = AtSleep →
  is_exiting_ p = true →
  2 ≤ fuel →
  _run fuel w self
  = mkWorld (nodes w) (all_nodes w) (<[self := with_greenlet p Dead]> (procs w))
            (trace w ++ [EvSleep self]).
Proof.
  intros Hp Hg He Hfuel.
  destruct fuel as [|[|fuel]]; [lia..|].
  change (_run (S (S fuel)) w self)
    with (match step w self with
          | Some w1 => match step w1 self with
                       | Some w2 => _run fuel w2 self
                       | None => w1
                       end
          | None => w
          end).
  rewrite (step_spec_sound w self p _ Hp (step_sleep w self p Hg)).
  set (w1 := emit (set_proc w self (with_greenlet p AtWhile)) (EvSleep self)).
  assert (procs w1 !! self = Some (with_greenlet p AtWhile)) as Hp1
    by apply lookup_insert_eq.
  rewrite (step_spec_sound w1 self _ _ Hp1
             (step_leave_loop w1 self (with_greenlet p AtWhile) eq_refl He)).
  rewrite run_blocked.
  - subst w1. unfold set_proc, emit. simpl. by rewrite insert_insert_eq.
  - unfold step. simpl. by rewrite lookup_insert_eq.
Qed.

(** When it is false the loop enters the next pass. *)
Lemma run_after_pass_not_exiting w p :
  procs w !! self = Some p →
  greenlet_ p = AtSleep →
  is_exiting_ p = false →
  greenlet_of (_run 2 w self) self = Some AtGet.
Proof.
  intros Hp Hg He. simpl.
  rewrite (step_spec_sound w self p _ Hp (step_sleep w self p Hg)).
  set (w1 := emit (set_proc w self (with_greenlet p AtWhile)) (EvSleep self)).
  assert (procs w1 !! self = Some (with_greenlet p AtWhile)) as Hp1
    by apply lookup_insert_eq.
  rewrite (step_spec_sound w1 self _ _ Hp1
             (step_enter_pass w1 self (with_greenlet p AtWhile) eq_refl He)).
  unfold greenlet_of. simpl. by rewrite lookup_insert_eq.
Qed.

End run_loop.

(** C1, as stated, fails.  The sentinel is dequeued by the first step; the
    greenlet then yields, passes the loop test ([is_exiting_] is false),
    enters a new pass and dispatches the message that was behind the
    sentinel.  It ends suspended in [get()], and no amount of running
    finishes it. *)
Lemma sentinel_does_not_stop_run_loop :
  trace (_run 1 sentinel_then_message 0) = [EvDequeued 0 PyNone] ∧
  trace (_run 9 sentinel_then_message 0)
    = [EvDequeued 0 PyNone; EvSleep 0;
       EvDequeued 0 (PyStr "m"); EvHandled 0 0%N (PyStr "m")] ∧
  handled 0 (trace (_run 9 sentinel_then_message 0)) = [PyStr "m"] ∧
  greenlet_of (_run 9 sentinel_then_message 0) 0 = Some AtGet ∧
  ∀ fuel, greenlet_of (_run fuel sentinel_then_message 0) 0 ≠ Some Dead.
Proof.
  split; [by vm_compute|]. split; [by vm_compute|].
  split; [by vm_compute|]. split; [by vm_compute|].
  intros fuel. eapply run_stays_alive; [reflexivity|reflexivity|by vm_compute].
Qed.

(** C1, amended.  When the sentinel is dequeued the handler is not called
    for it and the drain pass ends.  Whether the run loop then terminates is
    decided by [is_exiting_] at the loop test that follows the yield: if the
    flag is true the greenlet finishes with nothing further dequeued or
    dispatched; if it is false the loop starts another pass and the greenlet
    never finishes. *)
Theorem sentinel_ends_pass_loop_exits_iff_exiting w self p rest :
  procs w !! self = Some p →
  greenlet_ p = AtGet →
  inbox_ p = PyNone :: rest →
  ∃ w1,
    step w self = Some w1 ∧
    handled self (trace w1) = handled self (trace w) ∧
    greenlet_of w1 self = Some AtSleep ∧
    (is_exiting_ p = true →
       ∀ fuel, 2 ≤ fuel →
         greenlet_of (_run fuel w1 self) self = Some Dead ∧
         inbox_of (_run fuel w1 self) self = Some rest ∧
         handled self (trace (_run fuel w1 self)) = handled self (trace w)) ∧
    (is_exiting_ p = false →
       greenlet_of (_run 2 w1 self) self = Some AtGet ∧
       ∀ fuel, greenlet_of (_run fuel w1 self) self ≠ Some Dead).
Proof.
  intros Hp Hg Hq.
  destruct (step_on_sentinel w self p rest Hp Hg Hq)
    as (w1 & Hstep & Hprocs & _ & _ & Htrace).
  assert (procs w1 !! self = Some (with_greenlet (with_inbox p rest) AtSleep)) as Hp1.
  { rewrite Hprocs. apply lookup_insert_eq. }
  exists w1. split; [done|].
  split; [by rewrite Htrace, handled_app, app_nil_r|].
  split; [unfold greenlet_of; by rewrite Hp1|].
  split.
  - intros He fuel Hfuel.
    rewrite (run_after_pass_exiting self w1 _ fuel Hp1 eq_refl He Hfuel).
    unfold greenlet_of, inbox_of. simpl. rewrite lookup_insert_eq. simpl.
    split; [done|]. split; [done|].
    by rewrite Htrace, !handled_app, !app_nil_r.
  - intros He. split.
    + by apply (run_after_pass_not_exiting self w1 _ Hp1).
    + intros fuel. by apply (run_stays_alive self fuel w1 _ Hp1).
Qed.

Lemma sentinel_ends_pass_loop_exits_iff_exiting_witness :
  (∃ w1,
      step (exec [Turn 0] exiting_process) 0 = Some w1 ∧
      handled 0 (trace w1) = handled 0 (trace (exec [Turn 0] exiting_process)) ∧
      greenlet_of w1 0 = Some AtSleep ∧
      ∀ fuel, 2 ≤ fuel →
        greenlet_of (_run fuel w1 0) 0 = Some Dead ∧
        inbox_of (_run fuel w1 0) 0 = Some [] ∧
        handled 0 (trace (_run fuel w1 0))
        = handled 0 (trace (exec [Turn 0] exiting_process)))
  ∧
  (∃ w1,
      step sentinel_then_message 0 = Some w1 ∧
      handled 0 (trace w1) = handled 0 (trace sentinel_then_message) ∧
      greenlet_of w1 0 = Some AtSleep ∧
      greenlet_of (_run 2 w1 0) 0 = Some AtGet ∧
      ∀ fuel, greenlet_of (_run fuel w1 0) 0 ≠ Some Dead).
Proof.
  split.
  - destruct (sentinel_ends_pass_loop_exits_iff_exiting
                (exec [Turn 0] exiting_process) 0
                (mkProcess AtGet "py@host" [PyNone] 0%N true ∅ ∅) []
                eq_refl eq_refl eq_refl)
      as (w1 & Hstep & Hhandled & Hg & Hexiting & _).
    exists w1. repeat split; try done; by apply Hexiting.
  - destruct (sentinel_ends_pass_loop_exits_iff_exiting
                sentinel_then_message 0
                (mkProcess AtGet "py@host" [PyNone; PyStr "m"] 0%N false ∅ ∅)
                [PyStr "m"] eq_refl eq_refl eq_refl)
      as (w1 & Hstep & Hhandled & Hg & _ & Hrunning).
    exists w1. repeat split; try done; by apply Hrunning.
Defined.

(** * Further properties of the run loop, the inbox and [exit] *)

(** ** One operation at a time *)

Lemma step_turn w s w' :
  step w s = Some w' →
  ∃ p new p',
    procs w !! s = Some p ∧
    turn s p new p' ∧
    w' = mkWorld (nodes w) (all_nodes w) (<[s := p']> (procs w)) (trace w ++ new).
Proof.
  intros (p & Hp & Hs)%step_inv. exists p.
  destruct Hs as [Hg He|Hg He|q Hg Hq|msg q Hg Hq Hmsg|Hg].
  - eexists [], _. split; [done|]. split; [by constructor|].
    unfold set_proc. by rewrite app_nil_r.
  - eexists [], _. split; [done|]. split; [by constructor|].
    unfold set_proc. by rewrite app_nil_r.
  - eexists _, _. split; [done|]. split; [by apply turn_sentinel|].
    unfold set_proc, emit. simpl. by rewrite insert_insert_eq.
  - eexists _, _. split; [done|]. split.
    + apply (turn_dispatch s p msg q); [done..|]. by intros ->.
    + unfold handle_one_inbox_message, set_proc, emit. simpl.
      by rewrite <- app_assoc.
  - eexists _, _. split; [done|]. split; [by constructor|]. done.
Qed.

Lemma turn_events s p new p' :
  turn s p new p' → Forall (λ e, event_greenlet e = Some s) new.
Proof. destruct 1; by repeat constructor. Qed.

Lemma apply_seen w o self p :
  procs w !! self = Some p →
  ∃ new p',
    seen_by self p new (puts_of self [o]) p' ∧
    procs (apply w o) !! self = Some p' ∧
    trace (apply w o) = trace w ++ new.
Proof.
  intros Hp. destruct o as [node|s|s msg|s reason]; simpl.
  - exists [], p. split; [by apply seen_other|].
    rewrite app_nil_r.
    destruct (__init__ w node) as [[self' w']|] eqn:Hinit; [|done].
    split; [by eapply init_keeps_procs|].
    by apply init_Ok_inv in Hinit as (n & _ & _ & ->).
  - destruct (step w s) as [w'|] eqn:Hstep.
    + apply step_turn in Hstep as (p0 & new & p0' & Hp0 & Hturn & ->). simpl.
      destruct (decide (s = self)) as [->|Hne].
      * assert (p0 = p) as -> by congruence.
        exists new, p0'. split; [by apply seen_turn|]. by rewrite lookup_insert_eq.
      * exists new, p. rewrite lookup_insert_ne by done.
        split; [|done]. apply seen_other.
        eapply Forall_impl; [by eapply turn_events|].
        simpl. intros e -> [=]. done.
    + exists [], p. rewrite app_nil_r. split; [by apply seen_other|done].
  - unfold puts_of, put. simpl.
    destruct (decide (s = self)) as [->|Hne].
    + rewrite Hp. simpl. rewrite lookup_insert_eq.
      exists [], (with_inbox p (inbox_ p ++ [msg])). rewrite app_nil_r.
      split; [by apply seen_put|done].
    + exists [], p. rewrite app_nil_r. split; [by apply seen_other|].
      destruct (procs w !! s); simpl; [|done].
      by rewrite lookup_insert_ne.
  - destruct (exit w s reason) as [w'|] eqn:Hexit.
    + apply exit_Ok_inv in Hexit as (p0 & node & n & _ & _ & _ & ->). simpl.
      eexists _, p. split; [|done]. apply seen_other. by repeat constructor.
    + exists [], p. rewrite app_nil_r. split; [by apply seen_other|done].
Qed.

(** A relation between the state of a process before and after a schedule,
    the events added and the messages put, holds of every schedule when it
    holds of none and is carried through one operation. *)
Lemma exec_invariant (self : ref)
    (R : Process → list event → list pyval → Process → Prop) :
  (∀ p, R p [] [] p) →
  (∀ p new puts p' new' puts' p'',
      seen_by self p new puts p' →
      R p' new' puts' p'' →
      R p (new ++ new') (puts ++ puts') p'') →
  ∀ ops w p,
    procs w !! self = Some p →
    ∃ new p',
      procs (exec ops w) !! self = Some p' ∧
      trace (exec ops w) = trace w ++ new ∧
      R p new (puts_of self ops) p'.
Proof.
  intros Hnil Hcons. induction ops as [|o ops IH]; intros w p Hp.
  - exists [], p. simpl. by rewrite app_nil_r.
  - destruct (apply_seen w o self p Hp) as (new1 & p1 & Hseen & Hp1 & Htr1).
    destruct (IH (apply w o) p1 Hp1) as (new2 & p2 & Hp2 & Htr2 & HR).
    exists (new1 ++ new2), p2.
    change (exec (o :: ops) w) with (exec ops (apply w o)).
    split; [done|]. split; [by rewrite Htr2, Htr1, app_assoc|].
    change (o :: ops) with ([o] ++ ops). unfold puts_of. rewrite omap_app.
    by eapply Hcons.
Qed.

(** Events of other greenlets, and of [exit], do not count for [self]. *)
Lemma dequeued_foreign self new :
  Forall (λ e, event_greenlet e ≠ Some self) new → dequeued self new = [].
Proof.
  induction 1 as [|e l He _ IH]; [done|].
  change (e :: l) with ([e] ++ l). unfold dequeued in *.
  rewrite omap_app, IH, app_nil_r.
  destruct e; simpl in *; try done. by rewrite decide_False by congruence.
Qed.

Lemma handled_foreign self new :
  Forall (λ e, event_greenlet e ≠ Some self) new → handled self new = [].
Proof.
  induction 1 as [|e l He _ IH]; [done|].
  change (e :: l) with ([e] ++ l). unfold handled in *.
  rewrite omap_app, IH, app_nil_r.
  destruct e; simpl in *; try done. by rewrite decide_False by congruence.
Qed.

Lemma sleeps_foreign self new :
  Forall (λ e, event_greenlet e ≠ Some self) new → sleeps self new = 0.
Proof.
  induction 1 as [|e l He _ IH]; [done|].
  unfold sleeps in *. rewrite filter_cons_False; [done|].
  intros ->. by apply He.
Qed.

Lemma sentinels_foreign self new :
  Forall (λ e, event_greenlet e ≠ Some self) new → sentinels self new = 0.
Proof.
  induction 1 as [|e l He _ IH]; [done|].
  unfold sentinels in *. rewrite filter_cons_False; [done|].
  intros ->. by apply He.
Qed.

(** ** Messages are neither lost nor duplicated *)

Lemma seen_conserves self p new puts p' :
  seen_by self p new puts p' →
  dequeued self new ++ inbox_ p' = inbox_ p ++ puts.
Proof.
  destruct 1 as [new p' Hturn|msg|new Hother].
  - rewrite app_nil_r.
    destruct Hturn as [| |q Hg Hq|msg q Hg Hq Hmsg|];
      unfold dequeued; simpl; rewrite ?decide_True by done; try done;
      by rewrite Hq.
  - done.
  - by rewrite dequeued_foreign, app_nil_r.
Qed.

(** X1. Under every schedule of constructions, greenlet turns, puts and
    exits, what the greenlet of a process has dequeued since the start,
    followed by what is still in its inbox, is what the inbox held at the
    start followed by the messages put since, in put order. *)
Theorem messages_conserved ops w self p :
  procs w !! self = Some p →
  ∃ new p',
    procs (exec ops w) !! self = Some p' ∧
    trace (exec ops w) = trace w ++ new ∧
    dequeued self new ++ inbox_ p' = inbox_ p ++ puts_of self ops.
Proof.
  apply (exec_invariant self
           (λ p0 new puts p', dequeued self new ++ inbox_ p' = inbox_ p0 ++ puts)).
  - intros p0. simpl. by rewrite app_nil_r.
  - intros p0 new puts p1 new' puts' p2 Hseen HR.
    apply seen_conserves in Hseen. unfold dequeued in *.
    by rewrite omap_app, <- app_assoc, HR, app_assoc, Hseen, app_assoc.
Qed.

Lemma messages_conserved_witness :
  ∃ p, procs two_pending !! 0 = Some p ∧
  ∃ new p',
    procs (exec [Turn 0; Put 0 PyNone; Spawn 0; Put 1 (PyInt 5); Turn 0; Turn 1;
                 Put 0 (PyStr "c"); Turn 0; Exit 0 PyNone; Turn 0; Turn 0]
                two_pending) !! 0 = Some p' ∧
    trace (exec [Turn 0; Put 0 PyNone; Spawn 0; Put 1 (PyInt 5); Turn 0; Turn 1;
                 Put 0 (PyStr "c"); Turn 0; Exit 0 PyNone; Turn 0; Turn 0]
                two_pending) = trace two_pending ++ new ∧
    dequeued 0 new ++ inbox_ p'
    = inbox_ p ++ puts_of 0 [Turn 0; Put 0 PyNone; Spawn 0; Put 1 (PyInt 5); Turn 0;
                             Turn 1; Put 0 (PyStr "c"); Turn 0; Exit 0 PyNone;
                             Turn 0; Turn 0].
Proof.
  eexists. split; [reflexivity|].
  apply (messages_conserved _ two_pending 0). reflexivity.
Defined.

(** ** The handler gets the dequeued messages that are not the sentinel *)

Lemma turn_handled_dequeued s p new p' self :
  turn s p new p' →
  handled self new = filter (λ m, m ≠ PyNone) (dequeued self new).
Proof.
  intros Hturn. destruct (decide (s = self)) as [->|Hne].
  - destruct Hturn as [| |q Hg Hq|msg q Hg Hq Hmsg|];
      unfold handled, dequeued; simpl; rewrite ?decide_True by done; try done.
    by rewrite filter_cons_True by done.
  - assert (Forall (λ e, event_greenlet e ≠ Some self) new) as Hforeign.
    { eapply Forall_impl; [by eapply turn_events|].
      simpl. intros e -> [=]. done. }
    by rewrite handled_foreign, dequeued_foreign.
Qed.

Lemma apply_handled_dequeued w o :
  ∃ new, trace (apply w o) = trace w ++ new ∧
         ∀ self, handled self new = filter (λ m, m ≠ PyNone) (dequeued self new).
Proof.
  destruct o as [node|s|s msg|s reason]; simpl.
  - exists []. rewrite app_nil_r. split; [|done].
    destruct (__init__ w node) as [[self' w']|] eqn:Hinit; [|done].
    by apply init_Ok_inv in Hinit as (n & _ & _ & ->).
  - destruct (step w s) as [w'|] eqn:Hstep.
    + apply step_turn in Hstep as (p & new & p' & _ & Hturn & ->).
      exists new. split; [done|]. intros self. by eapply turn_handled_dequeued.
    + exists []. by rewrite app_nil_r.
  - exists []. rewrite app_nil_r. split; [|done].
    unfold put. by destruct (procs w !! s).
  - destruct (exit w s reason) as [w'|] eqn:Hexit.
    + apply exit_Ok_inv in Hexit as (p & node & n & _ & _ & _ & ->).
      eexists. split; [done|]. done.
    + exists []. by rewrite app_nil_r.
Qed.

(** X2. Under every schedule and for every process, the messages its
    handler is called with are the messages its greenlet dequeued, in the
    same order, with the [None]s left out: each dequeued message that is not
    the sentinel is handled once, none is handled that was not dequeued. *)
Theorem handled_are_dequeued_non_sentinels ops :
  ∀ w, ∃ new,
    trace (exec ops w) = trace w ++ new ∧
    ∀ self, handled self new = filter (λ m, m ≠ PyNone) (dequeued self new).
Proof.
  induction ops as [|o ops IH]; intros w.
  - exists []. simpl. by rewrite app_nil_r.
  - destruct (apply_handled_dequeued w o) as (new1 & Htr1 & H1).
    destruct (IH (apply w o)) as (new2 & Htr2 & H2).
    exists (new1 ++ new2).
    change (exec (o :: ops) w) with (exec ops (apply w o)).
    split; [by rewrite Htr2, Htr1, app_assoc|].
    intros self. unfold dequeued. rewrite handled_app, omap_app, filter_app.
    fold (dequeued self new1) (dequeued self new2). by rewrite H1, H2.
Qed.

(** ** One yield for each pass that returned *)

Lemma seen_yield_balance self p new puts p' :
  seen_by self p new puts p' →
  sleeps self new + yield_due p' = sentinels self new + yield_due p.
Proof.
  destruct 1 as [new p' Hturn|msg|new Hother].
  - destruct Hturn as [Hg He|Hg He|q Hg Hq|msg q Hg Hq Hmsg|Hg];
      unfold sleeps, sentinels, yield_due; simpl; rewrite Hg;
      repeat first [ rewrite filter_cons_True by done
                   | rewrite filter_cons_False by congruence ];
      done.
  - done.
  - by rewrite sleeps_foreign, sentinels_foreign.
Qed.

(** X3. Under every schedule, the number of times the greenlet of a process
    has yielded ([gevent.sleep(0)]) is the number of sentinels it has
    dequeued, that is of drain passes that returned, less the one yield still
    due when [handle_inbox] has just returned: [_run] yields once after each
    pass and at no other time. *)
Theorem one_yield_per_pass ops w self p :
  procs w !! self = Some p →
  ∃ new p',
    procs (exec ops w) !! self = Some p' ∧
    trace (exec ops w) = trace w ++ new ∧
    sleeps self new + yield_due p' = sentinels self new + yield_due p.
Proof.
  apply (exec_invariant self
           (λ p0 new puts p',
              sleeps self new + yield_due p' = sentinels self new + yield_due p0)).
  - done.
  - intros p0 new puts p1 new' puts' p2 Hseen HR.
    apply seen_yield_balance in Hseen. unfold sleeps, sentinels in *.
    rewrite !filter_app, !length_app. lia.
Qed.

Lemma one_yield_per_pass_witness :
  ∃ p, procs two_pending_then_sentinel !! 0 = Some p ∧
  ∃ new p',
    procs (exec [Turn 0; Turn 0; Turn 0; Put 0 PyNone; Turn 0; Turn 0; Turn 0;
                 Turn 0; Turn 0] two_pending_then_sentinel) !! 0 = Some p' ∧
    trace (exec [Turn 0; Turn 0; Turn 0; Put 0 PyNone; Turn 0; Turn 0; Turn 0;
                 Turn 0; Turn 0] two_pending_then_sentinel)
    = trace two_pending_then_sentinel ++ new ∧
    sleeps 0 new + yield_due p' = sentinels 0 new + yield_due p.
Proof.
  eexists. split; [reflexivity|].
  apply (one_yield_per_pass _ two_pending_then_sentinel 0). reflexivity.
Defined.

(** ** A turn is local *)

Lemma turn_stable s p new p' : turn s p new p' → stable_attrs p p'.
Proof. destruct 1; by repeat split. Qed.

(** X4. A turn of the greenlet of one process changes nothing but that
    process's object, and of it at most the inbox and the control point: the
    nodes, [Node.all_nodes] and every other process are as before, and every
    event added to the trace is an event of that greenlet. *)
Theorem turn_touches_only_its_process w s w' :
  step w s = Some w' →
  nodes w' = nodes w ∧
  all_nodes w' = all_nodes w ∧
  (∀ self, self ≠ s → procs w' !! self = procs w !! self) ∧
  (∃ p p', procs w !! s = Some p ∧ procs w' !! s = Some p' ∧ stable_attrs p p') ∧
  ∃ new, trace w' = trace w ++ new ∧ Forall (λ e, event_greenlet e = Some s) new.
Proof.
  intros (p & new & p' & Hp & Hturn & ->)%step_turn. simpl.
  split; [done|]. split; [done|].
  split; [intros self Hne; by rewrite lookup_insert_ne|].
  split.
  - exists p, p'. rewrite lookup_insert_eq. eauto using turn_stable.
  - exists new. eauto using turn_events.
Qed.

Lemma turn_touches_only_its_process_witness :
  ∃ w', step two_pending 0 = Some w' ∧
    nodes w' = nodes two_pending ∧
    all_nodes w' = all_nodes two_pending ∧
    (∀ self, self ≠ 0 → procs w' !! self = procs two_pending !! self) ∧
    (∃ p p', procs two_pending !! 0 = Some p ∧ procs w' !! 0 = Some p' ∧
             stable_attrs p p') ∧
    ∃ new, trace w' = trace two_pending ++ new ∧
           Forall (λ e, event_greenlet e = Some 0) new.
Proof.
  eexists. split; [reflexivity|].
  apply (turn_touches_only_its_process two_pending 0). reflexivity.
Defined.

(** ** Where the flag is read *)

(** X5. A process with [is_exiting_] true whose greenlet is inside a drain
    pass still dispatches every message in front of the sentinel; the
    sentinel then ends the pass, [_run] yields, finds the flag true and
    returns.  What was behind the sentinel stays in the inbox, never
    dequeued. *)
Theorem exiting_run_ends_at_sentinel w self p msgs rest fuel :
  procs w !! self = Some p →
  greenlet_ p = AtGet →
  is_exiting_ p = true →
  inbox_ p = msgs ++ PyNone :: rest →
  Forall (λ m, m ≠ PyNone) msgs →
  length msgs + 3 ≤ fuel →
  _run fuel w self
  = mkWorld (nodes w) (all_nodes w)
            (<[self := with_greenlet (with_inbox p rest) Dead]> (procs w))
            (trace w ++ dispatch_events self (pid_ p) msgs
                     ++ [EvDequeued self PyNone; EvSleep self]).
Proof.
  intros Hp Hg He Hq Hall Hfuel.
  replace fuel with (length msgs + S (fuel - S (length msgs))) by lia.
  rewrite (run_dispatch self msgs w p (PyNone :: rest)); [|done..].
  set (wd := after_dispatch w self p msgs (PyNone :: rest)).
  assert (procs wd !! self = Some (with_inbox p (PyNone :: rest))) as Hpd
    by apply lookup_insert_eq.
  change (_run (S (fuel - S (length msgs))) wd self)
    with (match step wd self with
          | Some w' => _run (fuel - S (length msgs)) w' self
          | None => wd
          end).
  rewrite (step_spec_sound wd self _ _ Hpd
             (step_sentinel wd self (with_inbox p (PyNone :: rest)) rest Hg eq_refl)).
  rewrite (run_after_pass_exiting self _
             (with_greenlet (with_inbox p rest) AtSleep));
    [|apply lookup_insert_eq|done|done|lia].
  subst wd. unfold after_dispatch. simpl.
  rewrite !insert_insert_eq. f_equal.
  by rewrite <- !app_assoc.
Qed.

Lemma exiting_run_ends_at_sentinel_witness :
  _run 4 exiting_process 0
  = mkWorld (nodes exiting_process) (all_nodes exiting_process)
            (<[0 := mkProcess Dead "py@host" [] 0%N true ∅ ∅]> (procs exiting_process))
            (trace exiting_process
               ++ dispatch_events 0 0%N [PyStr "m"]
               ++ [EvDequeued 0 PyNone; EvSleep 0]).
Proof.
  apply (exiting_run_ends_at_sentinel exiting_process 0
           (mkProcess AtGet "py@host" [PyStr "m"; PyNone] 0%N true ∅ ∅)
           [PyStr "m"] [] 4);
    [reflexivity | reflexivity | reflexivity | reflexivity
    | repeat constructor; discriminate | simpl; lia].
Defined.

Lemma run_stays_at_get self fuel : ∀ w p,
  procs w !! self = Some p →
  greenlet_ p = AtGet →
  Forall (λ m, m ≠ PyNone) (inbox_ p) →
  greenlet_of (_run fuel w self) self = Some AtGet.
Proof.
  induction fuel as [|fuel IH]; intros w p Hp Hg Hall.
  - unfold greenlet_of. simpl. by rewrite Hp, <- Hg.
  - simpl. destruct (inbox_ p) as [|msg q] eqn:Hq.
    + rewrite (step_on_empty self w p Hp Hg Hq).
      unfold greenlet_of. by rewrite Hp, <- Hg.
    + apply Forall_cons in Hall as [Hmsg Hall].
      rewrite (step_on_message self w p msg q Hp Hg Hq); [|by destruct msg].
      apply (IH _ (with_inbox p q)); [apply lookup_insert_eq|done|done].
Qed.

(** X6. The flag alone ends nothing: a greenlet inside a drain pass whose
    inbox holds no sentinel never finishes, whatever [is_exiting_] is.  It
    dispatches everything in the inbox and stays suspended in [get()]; the
    loop test that reads the flag is not reached. *)
Theorem no_sentinel_no_end w self p :
  procs w !! self = Some p →
  greenlet_ p = AtGet →
  Forall (λ m, m ≠ PyNone) (inbox_ p) →
  (∀ fuel, greenlet_of (_run fuel w self) self = Some AtGet) ∧
  (∀ fuel, length (inbox_ p) ≤ fuel →
           _run fuel w self = after_dispatch w self p (inbox_ p) [] ∧
           step (_run fuel w self) self = None).
Proof.
  intros Hp Hg Hall. split.
  - intros fuel. by apply (run_stays_at_get self fuel w p).
  - intros fuel Hfuel.
    rewrite (run_until_empty self w p (inbox_ p) fuel) by done.
    split; [done|].
    apply (step_on_empty self _ (with_inbox p [])); [apply lookup_insert_eq|done..].
Qed.

Lemma no_sentinel_no_end_witness :
  exiting_of exiting_without_sentinel 0 = Some true ∧
  (∀ fuel, greenlet_of (_run fuel exiting_without_sentinel 0) 0 = Some AtGet) ∧
  (∀ fuel, 2 ≤ fuel →
           _run fuel exiting_without_sentinel 0
           = after_dispatch exiting_without_sentinel 0
               (mkProcess AtGet "py@host" [PyStr "a"; PyStr "b"] 0%N true ∅ ∅)
               [PyStr "a"; PyStr "b"] [] ∧
           step (_run fuel exiting_without_sentinel 0) 0 = None).
Proof.
  split; [reflexivity|].
  apply (no_sentinel_no_end exiting_without_sentinel 0
           (mkProcess AtGet "py@host" [PyStr "a"; PyStr "b"] 0%N true ∅ ∅));
    [reflexivity | reflexivity | repeat constructor; discriminate].
Defined.

(** ** [exit] and the greenlets *)

Lemma turn_step v s p new p' :
  procs v !! s = Some p →
  turn s p new p' →
  step v s
  = Some (mkWorld (nodes v) (all_nodes v) (<[s := p']> (procs v)) (trace v ++ new)).
Proof.
  intros Hp Hturn.
  destruct Hturn as [Hg He|Hg He|q Hg Hq|msg q Hg Hq Hmsg|Hg].
  - rewrite (step_spec_sound v s p _ Hp (step_leave_loop v s p Hg He)).
    unfold set_proc. by rewrite app_nil_r.
  - rewrite (step_spec_sound v s p _ Hp (step_enter_pass v s p Hg He)).
    unfold set_proc. by rewrite app_nil_r.
  - rewrite (step_spec_sound v s p _ Hp (step_sentinel v s p q Hg Hq)).
    unfold set_proc, emit. simpl. by rewrite insert_insert_eq.
  - assert (py_is_none msg = false) as Hnone by by destruct msg.
    rewrite (step_spec_sound v s p _ Hp (step_dispatch v s p msg q Hg Hq Hnone)).
    unfold handle_one_inbox_message, set_proc, emit. simpl.
    by rewrite <- app_assoc.
  - by rewrite (step_spec_sound v s p _ Hp (step_sleep v s p Hg)).
Qed.

(** What a greenlet does in a turn depends on the process objects only. *)
Lemma step_same_procs w v s w' :
  procs w = procs v →
  step w s = Some w' →
  ∃ v' new, step v s = Some v' ∧
            procs w' = procs v' ∧
            trace w' = trace w ++ new ∧
            trace v' = trace v ++ new.
Proof.
  intros Heq (p & new & p' & Hp & Hturn & ->)%step_turn.
  rewrite Heq in Hp. eexists _, new.
  split; [by apply (turn_step v s p new p')|].
  simpl. by rewrite Heq.
Qed.

Lemma run_same_procs s fuel : ∀ w v,
  procs w = procs v →
  procs (_run fuel w s) = procs (_run fuel v s) ∧
  ∃ new, trace (_run fuel w s) = trace w ++ new ∧
         trace (_run fuel v s) = trace v ++ new.
Proof.
  induction fuel as [|fuel IH]; intros w v Heq; simpl.
  - split; [done|]. exists []. by rewrite !app_nil_r.
  - destruct (step w s) as [w'|] eqn:Hw.
    + destruct (step_same_procs w v s w' Heq Hw) as (v' & new1 & -> & Heq' & Htw & Htv).
      destruct (IH w' v' Heq') as (Hprocs & new2 & Hrw & Hrv).
      split; [done|]. exists (new1 ++ new2).
      by rewrite Hrw, Hrv, Htw, Htv, <- !app_assoc.
    + destruct (step v s) as [v'|] eqn:Hv.
      * destruct (step_same_procs v w s v' (eq_sym Heq) Hv) as (? & ? & ? & _).
        congruence.
      * split; [done|]. exists []. by rewrite !app_nil_r.
Qed.

(** X7. [exit] stops no greenlet and changes nothing of what any greenlet
    does afterwards: run after an [exit] that returned, a greenlet -- that of
    the exited process too -- takes its process objects through the same
    states and adds the same events as it would have without the [exit]. *)
Theorem exit_then_run_as_without_exit w self reason w1 s fuel :
  exit w self reason = Ok w1 →
  procs (_run fuel w1 s) = procs (_run fuel w s) ∧
  ∃ new, trace (_run fuel w s) = trace w ++ new ∧
         trace (_run fuel w1 s) = trace w1 ++ new.
Proof.
  intros (p & node & n & _ & _ & _ & ->)%exit_Ok_inv.
  set (w1 := emit _ _).
  destruct (run_same_procs s fuel w1 w eq_refl) as (Hprocs & new & Hrw1 & Hrw).
  split; [done|]. by exists new.
Qed.

Lemma exit_then_run_as_without_exit_witness :
  ∃ w1, exit two_pending 0 (PyStr "normal") = Ok w1 ∧
    procs (_run 5 w1 0) = procs (_run 5 two_pending 0) ∧
    ∃ new, trace (_run 5 two_pending 0) = trace two_pending ++ new ∧
           trace (_run 5 w1 0) = trace w1 ++ new.
Proof.
  eexists. split; [reflexivity|].
  apply (exit_then_run_as_without_exit two_pending 0 (PyStr "normal")).
  reflexivity.
Defined.

(** ** [exit] and the node the process was constructed on *)

Lemma apply_all_nodes w o : all_nodes (apply w o) = all_nodes w.
Proof.
  destruct o as [node|s|s msg|s reason]; simpl.
  - destruct (__init__ w node) as [[self' w']|] eqn:Hinit; [|done].
    by apply init_Ok_inv in Hinit as (n & _ & _ & ->).
  - destruct (step w s) as [w'|] eqn:Hstep; [|done].
    by apply step_turn in Hstep as (p & new & p' & _ & _ & ->).
  - unfold put. by destruct (procs w !! s).
  - destruct (exit w s reason) as [w'|] eqn:Hexit; [|done].
    by apply exit_Ok_inv in Hexit as (p & node & n & _ & _ & _ & ->).
Qed.

(** No method of [Process] writes [Node.all_nodes]. *)
Lemma exec_all_nodes ops : ∀ w, all_nodes (exec ops w) = all_nodes w.
Proof.
  induction ops as [|o ops IH]; intros w; [done|].
  change (exec (o :: ops) w) with (exec ops (apply w o)).
  by rewrite IH, apply_all_nodes.
Qed.

(** The object a constructor call made keeps the pid it was issued and the
    name of its node through every schedule. *)
Lemma constructed_keeps_identity w node self w1 ops :
  __init__ w node = Ok (self, w1) →
  ∃ n p,
    nodes w !! node = Some n ∧
    procs (exec ops w1) !! self = Some p ∧
    pid_ p = (Node.register_new_process n self).1 ∧
    node_name_ p = Node.node_name_ n ∧
    all_nodes (exec ops w1) = all_nodes w.
Proof.
  intros (n & Hnode & -> & ->)%init_Ok_inv.
  set (w1 := set_proc _ _ _).
  destruct (exec_keeps_attrs ops w1 (fresh (dom (procs w))) _ (lookup_insert_eq _ _ _))
    as (p & Hp & Hname & Hpid & _).
  exists n, p. by rewrite exec_all_nodes.
Qed.

(** X8. A process constructed on a node that [Node.all_nodes] does not list
    under the node's name can never exit: whatever happened since its
    construction, [exit] raises [KeyError] on the node's name (line 93), and
    so unregisters nothing. *)
Theorem exit_raises_on_unlisted_node w node n self w1 ops reason :
  __init__ w node = Ok (self, w1) →
  nodes w !! node = Some n →
  all_nodes w !! Node.node_name_ n = None →
  exit (exec ops w1) self reason = Raise (KeyError (Node.node_name_ n)).
Proof.
  intros Hinit Hnode Hname.
  destruct (constructed_keeps_identity w node self w1 ops Hinit)
    as (n' & p & Hnode' & Hp & _ & Hpname & Hall).
  assert (n' = n) as -> by congruence.
  unfold exit. by rewrite Hp, Hall, Hpname, Hname.
Qed.

Lemma exit_raises_on_unlisted_node_witness :
  ∃ self w1,
    __init__ (unlisted_node "py@host") 0 = Ok (self, w1) ∧
    exit (exec [Put 0 (PyStr "a"); Turn 0; Turn 0; Spawn 0] w1) self (PyStr "normal")
    = Raise (KeyError "py@host").
Proof.
  eexists. eexists. split; [reflexivity|].
  eapply (exit_raises_on_unlisted_node (unlisted_node "py@host") 0
            (Node.mk "py@host" ∅)); reflexivity.
Defined.

(** X9. When [exit] returns, the call it made, [n.on_exit_process(self.pid_,
    reason)], went to the node that [Node.all_nodes] lists under the name of
    the node the process was constructed on, with the pid that node issued
    to the constructor and the reason given -- whatever happened between the
    construction and the [exit]. *)
Theorem exit_reports_the_issued_pid w node n self w1 ops reason w2 :
  __init__ w node = Ok (self, w1) →
  nodes w !! node = Some n →
  exit (exec ops w1) self reason = Ok w2 →
  ∃ listed,
    all_nodes w !! Node.node_name_ n = Some listed ∧
    trace w2 = trace (exec ops w1)
               ++ [EvOnExitProcess listed (Node.register_new_process n self).1 reason].
Proof.
  intros Hinit Hnode (p & listed & n2 & Hp & Hname & _ & ->)%exit_Ok_inv.
  destruct (constructed_keeps_identity w node self w1 ops Hinit)
    as (n' & p' & Hnode' & Hp' & Hpid & Hpname & Hall).
  assert (n' = n) as -> by congruence.
  assert (p' = p) as -> by congruence.
  exists listed. split; [by rewrite <- Hall, <- Hpname|].
  unfold emit, set_node. cbn [trace]. by rewrite Hpid.
Qed.

Lemma exit_reports_the_issued_pid_witness :
  ∃ self w1 w2,
    __init__ (one_process "py@host") 0 = Ok (self, w1) ∧
    exit (exec [Put 1 (PyStr "a"); Turn 1; Turn 1; Exit 0 PyNone; Spawn 0] w1)
         self (PyStr "normal") = Ok w2 ∧
    ∃ listed,
      all_nodes (one_process "py@host") !! "py@host" = Some listed ∧
      trace w2 = trace (exec [Put 1 (PyStr "a"); Turn 1; Turn 1; Exit 0 PyNone; Spawn 0] w1)
                 ++ [EvOnExitProcess listed 1%N (PyStr "normal")].
Proof.
  exists 1. eexists. eexists. split; [reflexivity|]. split; [reflexivity|].
  exact (exit_reports_the_issued_pid (one_process "py@host") 0
           (Node.mk "py@host" {[ 0%N := 0 ]}) 1 _
           [Put 1 (PyStr "a"); Turn 1; Turn 1; Exit 0 PyNone; Spawn 0]
           (PyStr "normal") _ eq_refl eq_refl eq_refl).
Defined.

(** ** The registry and the objects agree *)

(** An entry found after an operation was there before, in a node of the
    same name, or is the entry of the process just constructed. *)
Lemma apply_entry w o node n' pid r :
  nodes (apply w o) !! node = Some n' →
  Node.lookup n' pid = Some r →
  (∃ n, nodes w !! node = Some n ∧
        Node.node_name_ n' = Node.node_name_ n ∧
        Node.lookup n pid = Some r) ∨
  (∃ p, procs (apply w o) !! r = Some p ∧
        pid_ p = pid ∧ node_name_ p = Node.node_name_ n').
Proof.
  destruct o as [node0|s|s msg|s reason]; simpl.
  - destruct (__init__ w node0) as [[self0 w']|] eqn:Hinit; [|by eauto 10].
    apply init_Ok_inv in Hinit as (n0 & Hnode0 & -> & ->). simpl.
    destruct (decide (node0 = node)) as [->|Hne].
    + rewrite lookup_insert_eq. intros [= <-]. unfold Node.lookup. simpl.
      intros [[<- <-]|[Hpid Hr]]%lookup_insert_Some.
      * right. rewrite lookup_insert_eq. eauto.
      * left. eauto.
    + rewrite lookup_insert_ne by done. eauto 10.
  - destruct (step w s) as [w'|] eqn:Hstep; [|by eauto 10].
    rewrite (step_nodes _ _ _ Hstep). eauto 10.
  - rewrite put_nodes. eauto 10.
  - destruct (exit w s reason) as [w'|] eqn:Hexit; [|by eauto 10].
    apply exit_Ok_inv in Hexit as (p0 & node0 & n0 & _ & _ & Hnode0 & ->). simpl.
    destruct (decide (node0 = node)) as [->|Hne].
    + rewrite lookup_insert_eq. intros [= <-]. unfold Node.lookup. simpl.
      intros [_ Hr]%lookup_delete_Some. left. eauto.
    + rewrite lookup_insert_ne by done. eauto 10.
Qed.

Lemma apply_consistent w o :
  registry_consistent w → registry_consistent (apply w o).
Proof.
  intros Hc node n' pid r Hnode Hlookup.
  destruct (apply_entry w o node n' pid r Hnode Hlookup)
    as [(n & Hnode0 & Hname & Hlookup0)|Hnew]; [|done].
  destruct (Hc node n pid r Hnode0 Hlookup0) as (p & Hp & Hpid & Hpname).
  destruct (apply_keeps_attrs w o r p Hp) as (p' & Hp' & Hname' & Hpid' & _).
  exists p'. split; [done|]. split; congruence.
Qed.

(** X10. If every registry entry [pid -> process] leads to a process object
    whose [pid_] is that pid and whose [node_name_] is the node's name, this
    stays so under every schedule of constructions, greenlet turns, puts and
    exits: the constructor files the object under the pid it stores, and no
    method changes [pid_] or [node_name_] afterwards. *)
Theorem registry_stays_consistent ops : ∀ w,
  registry_consistent w → registry_consistent (exec ops w).
Proof.
  induction ops as [|o ops IH]; intros w Hc; [done|].
  change (exec (o :: ops) w) with (exec ops (apply w o)).
  by apply IH, apply_consistent.
Qed.

Lemma registry_stays_consistent_witness :
  registry_consistent (one_node "py@host") ∧
  registry_consistent
    (exec [Spawn 0; Spawn 0; Put 0 (PyStr "a"); Turn 0; Turn 0; Exit 0 PyNone;
           Spawn 0; Turn 1; Exit 1 (PyStr "normal")]
          (one_node "py@host")).
Proof.
  assert (registry_consistent (one_node "py@host")) as Hc.
  { intros node n pid r Hnode Hlookup. simpl in Hnode.
    apply lookup_singleton_Some in Hnode as [_ <-].
    unfold Node.lookup in Hlookup. simpl in Hlookup.
    by rewrite lookup_empty in Hlookup. }
  split; [done|]. by apply registry_stays_consistent.
Defined.

(** ** Construction followed by [exit] *)

Lemma node_eta (n : Node.t) : Node.mk (Node.node_name_ n) (Node.processes_ n) = n.
Proof. by destruct n. Qed.

(** X11. Constructing a process on a node that [Node.all_nodes] lists under
    its own name and calling [exit] on it returns and leaves every node's
    registry as it was before the construction: the pid removed is the pid
    registered, in the same node.  The process object itself stays in the
    store, unchanged by the [exit]. *)
Theorem construct_then_exit_restores_registry w node n self w1 reason :
  __init__ w node = Ok (self, w1) →
  nodes w !! node = Some n →
  all_nodes w !! Node.node_name_ n = Some node →
  ∃ w2, exit w1 self reason = Ok w2 ∧
        nodes w2 = nodes w ∧
        all_nodes w2 = all_nodes w ∧
        procs w2 = procs w1.
Proof.
  intros (n' & Hnode' & -> & ->)%init_Ok_inv Hnode Hname.
  assert (n' = n) as -> by congruence.
  eexists. split.
  - unfold exit. simpl. rewrite lookup_insert_eq. simpl.
    rewrite Hname, lookup_insert_eq. reflexivity.
  - simpl. split; [|done].
    rewrite insert_insert_eq. unfold Node.on_exit_process. simpl.
    rewrite delete_insert_id by apply fresh_pid_unused.
    by rewrite node_eta, insert_id.
Qed.

Lemma construct_then_exit_restores_registry_witness :
  ∃ self w1,
    __init__ (one_process "py@host") 0 = Ok (self, w1) ∧
    ∃ w2, exit w1 self (PyStr "normal") = Ok w2 ∧
          nodes w2 = nodes (one_process "py@host") ∧
          all_nodes w2 = all_nodes (one_process "py@host") ∧
          procs w2 = procs w1.
Proof.
  eexists. eexists. split; [reflexivity|].
  eapply (construct_then_exit_restores_registry (one_process "py@host") 0);
    reflexivity.
Defined.

(** ** Two constructions *)

(** X12. Two processes constructed on the same node, with no [exit] in
    between, are different objects with different pids, and after the second
    construction the node's registry leads from each pid to its own
    object. *)
Theorem live_processes_have_distinct_pids w node s1 w1 ops s2 w2 :
  __init__ w node = Ok (s1, w1) →
  Forall (λ o, is_exit o = false) ops →
  __init__ (exec ops w1) node = Ok (s2, w2) →
  ∃ p1 p2 n2,
    procs w2 !! s1 = Some p1 ∧
    procs w2 !! s2 = Some p2 ∧
    s1 ≠ s2 ∧
    pid_ p1 ≠ pid_ p2 ∧
    nodes w2 !! node = Some n2 ∧
    Node.lookup n2 (pid_ p1) = Some s1 ∧
    Node.lookup n2 (pid_ p2) = Some s2.
Proof.
  intros (n & Hnode & -> & ->)%init_Ok_inv Hops.
  set (s1 := fresh (dom (procs w))).
  set (pid1 := (Node.register_new_process n s1).1).
  set (w1 := set_proc _ _ _).
  assert (∃ p, procs w1 !! s1 = Some p ∧ pid_ p = pid1) as (p & Hp & Hpid)
    by (eexists; split; [apply lookup_insert_eq|done]).
  destruct (exec_keeps_registered ops w1 node (Node.register_new_process n s1).2
              pid1 s1 Hops (lookup_insert_eq _ _ _) (lookup_insert_eq _ _ _))
    as (n1 & Hnode1 & Hreg1).
  destruct (exec_keeps_attrs ops w1 s1 p Hp) as (p1 & Hp1 & _ & Hpid1 & _).
  intros (n1' & Hnode1' & -> & ->)%init_Ok_inv.
  assert (n1' = n1) as -> by congruence.
  set (wx := exec ops w1) in *.
  assert (s1 ≠ fresh (dom (procs wx))) as Hs.
  { intros Heq. pose proof (fresh_ref_unused wx) as Hfresh. congruence. }
  assert (pid1 ≠ fresh (dom (Node.processes_ n1))) as Hpid'.
  { intros Heq. pose proof (fresh_pid_unused n1) as Hfresh.
    unfold Node.lookup in Hreg1. congruence. }
  eexists p1, _, _. simpl.
  split; [by rewrite lookup_insert_ne|].
  split; [apply lookup_insert_eq|].
  split; [done|]. simpl.
  split; [by rewrite Hpid1, Hpid|].
  split; [apply lookup_insert_eq|].
  unfold Node.lookup in *. simpl. rewrite Hpid1, Hpid.
  split; [|apply lookup_insert_eq].
  rewrite lookup_insert_ne; [done|]. by intros Heq.
Qed.

Lemma live_processes_have_distinct_pids_witness :
  ∃ s1 w1 s2 w2,
    __init__ (one_node "py@host") 0 = Ok (s1, w1) ∧
    __init__ (exec [Put 0 (PyStr "a"); Turn 0; Turn 0] w1) 0 = Ok (s2, w2) ∧
    ∃ p1 p2 n2,
      procs w2 !! s1 = Some p1 ∧
      procs w2 !! s2 = Some p2 ∧
      s1 ≠ s2 ∧
      pid_ p1 ≠ pid_ p2 ∧
      nodes w2 !! 0 = Some n2 ∧
      Node.lookup n2 (pid_ p1) = Some s1 ∧
      Node.lookup n2 (pid_ p2) = Some s2.
Proof.
  eexists. eexists. eexists. eexists.
  split; [reflexivity|]. split; [reflexivity|].
  eapply (live_processes_have_distinct_pids (one_node "py@host") 0 _ _
            [Put 0 (PyStr "a"); Turn 0; Turn 0]);
    [reflexivity | by repeat constructor | reflexivity].
Defined.

(** ** [exit] unregisters from the node the constructor registered with *)





